(** * Header parsing of a JFIF-wrapped baseline JPEG stream (main.cpp)

    A shallow embedding of [HuffmanTable] and [JPEGParser] of main.cpp and
    the properties of the specification checked against it.

    Conventions of the embedding.
    - [unsigned char] data read from the stream is a [byte]; a value the
      code computes on is a [Z], with the wrap-around of its C++ type
      written out ([u8], [u16], [u64]).
    - [operator[]] and iterator ranges of [std::vector] / [std::array] are
      not bounds-checked in C++: an access outside the container is
      undefined behaviour.  The embedding makes every access explicit and
      gives the outcome [OutOfRange] to a run that performs such an access.
    - [throw;] outside a handler ends the program through std::terminate:
      the outcome [Terminated].  What [parse] writes to [std::cout] before
      is kept as a list of events.
    - [while] loops are run on a fuel counter; [OutOfFuel] is the outcome
      of a loop that was cut off, and the fuel given is shown sufficient
      ([shift_while_Returned], [parse_fuel_suffices]). *)

From Stdlib Require Import ZArith Lia.
From Stdlib Require Import Init.Byte Strings.Byte.
From stdpp Require Import base tactics option list list_numbers.

Local Open Scope Z_scope.

(** ** Machine integers *)

Definition u8 (z : Z) : Z := z mod 2 ^ 8.
Definition u16 (z : Z) : Z := z mod 2 ^ 16.
Definition u64 (z : Z) : Z := z mod 2 ^ 64.

(** The value of an [unsigned char] of the stream. *)
Definition val (b : byte) : Z := Z.of_N (Byte.to_N b).

(** ** Outcomes of a run *)

Inductive outcome (A : Type) : Type :=
| Returned (a : A)   (* the function returns [a] *)
| OutOfRange         (* an element access outside its container *)
| Terminated         (* [throw;] with no active exception: std::terminate *)
| OutOfFuel.         (* a loop of the model was cut off *)

Arguments Returned {A} a.
Arguments OutOfRange {A}.
Arguments Terminated {A}.
Arguments OutOfFuel {A}.

#[global] Instance outcome_ret : MRet outcome := fun A a => Returned a.

#[global] Instance outcome_bind : MBind outcome := fun A B k m =>
  match m with
  | Returned a => k a
  | OutOfRange => OutOfRange
  | Terminated => Terminated
  | OutOfFuel => OutOfFuel
  end.

(** [v[i]]: the element at position [i], out of range when [i] is not
    below [v.size()]. *)
Definition at_ {A : Type} (v : list A) (i : Z) : outcome A :=
  if bool_decide (0 <= i)
  then match v !! Z.to_nat i with
       | Some x => Returned x
       | None => OutOfRange
       end
  else OutOfRange.

(** ** Data of the decoder *)

Inductive DensityUnit : Type :=
| NoUnit
| PixelPerInch
| PixelPerCm
| Unnamed (v : Z).   (* a value of the enumeration's underlying [int] that
                        names no enumerator; the cast of line 128 makes it *)

Record RGB : Type := { r : byte; g : byte; b : byte }.

Record JFIFVersion : Type := { major : byte; minor : byte }.

Record JFIFData : Type := {
  version : JFIFVersion;
  density_unit : DensityUnit;
  x_density : Z;
  y_density : Z;
  x_thumbnail : byte;
  y_thumbnail : byte;
  thumbnail_data : list RGB
}.

Record QuantizationTable : Type := { data : list Z }.

Module HuffmanCode.

Record t : Type := Build {
  length : Z;   (* unsigned char *)
  code : Z;     (* unsigned short *)
  value : byte  (* the value the code is mapped to *)
}.

End HuffmanCode.

Abbreviation HuffmanCode := HuffmanCode.t.

Module HuffmanTable.

Record t : Type := Build { codes : list HuffmanCode }.

(** The inner [while (size > current_size)] of [make_code_table]. *)
Fixpoint shift_while (fuel : nat) (size code current_size : Z) : outcome (Z * Z) :=
  match fuel with
  | O => OutOfFuel
  | S fuel' =>
      if bool_decide (size > current_size)
      then shift_while fuel' size (u16 (Z.shiftl code 1)) (u8 (current_size + 1))
      else Returned (code, current_size)
  end.

(** The range-for of [make_code_table], with its [break]. *)
Fixpoint code_table_loop (sizes : list Z) (code current_size : Z)
    (code_table : list Z) : outcome (list Z) :=
  match sizes with
  | [] => Returned code_table
  | size :: rest =>
      '(code, current_size) ← shift_while 256 size code current_size;
      let code_table := code_table ++ [code] in
      if bool_decide (current_size > 16) || bool_decide (code = 0xffff)
      then Returned code_table
      else code_table_loop rest (u16 (code + 1)) current_size code_table
  end.

Definition make_code_table (sizes : list Z) : outcome (list Z) :=
  current_size ← at_ sizes 0;
  code_table_loop sizes 0 current_size [].

(** The two nested loops that fill [codes_length], from column [i] on. *)
Fixpoint expand_sizes (i : Z) (size_data : list byte) : list Z :=
  match size_data with
  | [] => []
  | n :: rest => replicate (Z.to_nat (val n)) (u8 (i + 1)) ++ expand_sizes (i + 1) rest
  end.

(** The pairing loop of [from_size_data], from index [i] on. *)
Fixpoint pair_codes (codes_length code_table : list Z) (i : Z)
    (data_area : list byte) (huffman_codes : list HuffmanCode)
    : outcome (list HuffmanCode) :=
  match data_area with
  | [] => Returned huffman_codes
  | d :: rest =>
      l ← at_ codes_length i;
      c ← at_ code_table i;
      pair_codes codes_length code_table (i + 1) rest
        (huffman_codes ++ [HuffmanCode.Build l c d])
  end.

Definition from_size_data (size_data data_area : list byte) : outcome t :=
  let codes_length := expand_sizes 0 size_data in
  code_table ← make_code_table codes_length;
  huffman_codes ← pair_codes codes_length code_table 0 data_area [];
  mret (Build huffman_codes).

End HuffmanTable.

Abbreviation HuffmanTable := HuffmanTable.t.

(** ** The parser *)

(** What the parser writes to [std::cout]. *)
Inductive event : Type :=
| ParsingMarker (marker index : Z)    (* line 208 *)
| IgnoredMarker (marker length : Z)   (* line 247 *)
| HexByte (b : Z).                    (* line 253 *)

(** A run that writes to [std::cout]: what was written, and the outcome. *)
Definition run (A : Type) : Type := list event * outcome A.

#[global] Instance run_ret : MRet run := fun A a => ([], Returned a).

#[global] Instance run_bind : MBind run := fun A B k m =>
  match m with
  | (out, Returned a) => let '(out', o) := k a in (out ++ out', o)
  | (out, OutOfRange) => (out, OutOfRange)
  | (out, Terminated) => (out, Terminated)
  | (out, OutOfFuel) => (out, OutOfFuel)
  end.

Definition lift {A : Type} (o : outcome A) : run A := ([], o).
Definition print (e : event) : run unit := ([e], Returned tt).
Definition throw {A : Type} : run A := ([], Terminated).

(** [v.size()]. *)
Definition size_ {A : Type} (v : list A) : Z := Z.of_nat (length v).

(** The iterator range [v.begin() + i, v.begin() + i + n). *)
Definition range {A : Type} (v : list A) (i n : Z) : outcome (list A) :=
  if bool_decide (0 <= i ∧ 0 <= n ∧ i + n <= size_ v)
  then Returned (take (Z.to_nat n) (drop (Z.to_nat i) v))
  else OutOfRange.

(** [v[i] = x]. *)
Definition store {A : Type} (v : list A) (i : Z) (x : A) : outcome (list A) :=
  if bool_decide (0 <= i < size_ v)
  then Returned (<[Z.to_nat i := x]> v)
  else OutOfRange.

(** Modelled from the spec: [u8_to_u16] is declared in utils.h, which is not
    among the sources; the specification reads the two density fields as
    16-bit big-endian values. *)
Definition u8_to_u16 (hi lo : byte) : Z := u16 (Z.shiftl (val hi) 8 + val lo).

(** The C-style cast [(DensityUnit) c] of line 128. *)
Definition DensityUnit_cast (v : Z) : DensityUnit :=
  if bool_decide (v = 0) then NoUnit
  else if bool_decide (v = 1) then PixelPerInch
  else if bool_decide (v = 2) then PixelPerCm
  else Unnamed v.

Record JPEGEncoded : Type := {
  metadata : option JFIFData;   (* [None]: never assigned *)
  q_tables : list QuantizationTable;
  q_tables_nbr : Z;
  huffman_ac_tables : list HuffmanTable;
  huffman_dc_tables : list HuffmanTable
}.

Module JPEGParser.

Record t : Type := Build { raw_data : list byte; index : Z }.

(** [index += n] on the [unsigned long long] cursor. *)
Definition advance (self : t) (n : Z) : t :=
  Build (raw_data self) (u64 (index self + n)).

(** The thumbnail loop of lines 140-145, from [i] on, [n] rounds left. *)
Fixpoint thumbnail_loop (raw : list byte) (n : nat) (i : Z)
    (thumbnail_data : list RGB) : outcome (list RGB) :=
  match n with
  | O => Returned thumbnail_data
  | S n' =>
      r ← at_ raw i;
      g ← at_ raw (i + 1);
      b ← at_ raw (i + 2);
      thumbnail_loop raw n' (i + 1) (thumbnail_data ++ [Build_RGB r g b])
  end.

Definition parse_jfif_data (self : t) : outcome (JFIFData * t) :=
  let raw := raw_data self in
  let self := advance self 5 in
  major ← at_ raw (index self);
  minor ← at_ raw (u64 (index self + 1));
  let version := Build_JFIFVersion major minor in
  let self := advance self 2 in
  unit_byte ← at_ raw (index self);
  let density_unit := DensityUnit_cast (val unit_byte) in
  let self := advance self 1 in
  x_hi ← at_ raw (index self);
  x_lo ← at_ raw (u64 (index self + 1));
  let x_density := u8_to_u16 x_hi x_lo in
  y_hi ← at_ raw (u64 (index self + 2));
  y_lo ← at_ raw (u64 (index self + 3));
  let y_density := u8_to_u16 y_hi y_lo in
  let self := advance self 4 in
  x_thumbnail ← at_ raw (index self);
  y_thumbnail ← at_ raw (u64 (index self + 1));
  let self := advance self 2 in
  thumbnail_data ←
    thumbnail_loop raw (Z.to_nat (val x_thumbnail * val y_thumbnail)) 0 [];
  mret (Build_JFIFData version density_unit x_density y_density
          x_thumbnail y_thumbnail thumbnail_data, self).

Definition parse_quantization_table (self : t) : outcome (QuantizationTable * t) :=
  let raw := raw_data self in
  c ← at_ raw (index self);
  let precision := Z.shiftr (Z.land (val c) 0xf0) 4 in
  let identifier := Z.land (val c) 0x0f in
  let self := advance self 1 in
  table_data ← range raw (index self) 64;
  let self := advance self 64 in
  mret (Build_QuantizationTable (val <$> table_data), self).

Definition parse_huffman_table (self : t) : outcome (HuffmanTable * t) :=
  let raw := raw_data self in
  size_data ← range raw (index self) 16;
  let self := advance self 16 in
  let codes_count := foldl Z.add 0 (val <$> size_data) in
  data_area ← range raw (index self) codes_count;
  let self := advance self codes_count in
  table ← HuffmanTable.from_size_data size_data data_area;
  mret (table, self).

(** The locals [jfif_data], [q_tables], [q_tables_nbr], [h_ac_tables] and
    [h_dc_tables] of [parse] are kept in the [JPEGEncoded] that line 257
    builds from them. *)
Definition parse_init : JPEGEncoded := {|
  metadata := None;
  q_tables := replicate 4 (Build_QuantizationTable (replicate 64 0));
  q_tables_nbr := 0;
  huffman_ac_tables := replicate 32 (HuffmanTable.Build []);
  huffman_dc_tables := replicate 32 (HuffmanTable.Build [])
|}.

(** The [while (index < segment_end)] of [case 0xdb]. *)
Fixpoint dqt_loop (fuel : nat) (segment_end : Z) (enc : JPEGEncoded) (self : t)
    : outcome (JPEGEncoded * t) :=
  match fuel with
  | O => OutOfFuel
  | S fuel' =>
      if bool_decide (index self < segment_end)
      then
        '(table, self) ← parse_quantization_table self;
        tables ← store (q_tables enc) (q_tables_nbr enc) table;
        let enc := {|
          metadata := metadata enc;
          q_tables := tables;
          q_tables_nbr := u8 (q_tables_nbr enc + 1);
          huffman_ac_tables := huffman_ac_tables enc;
          huffman_dc_tables := huffman_dc_tables enc |} in
        dqt_loop fuel' segment_end enc self
      else Returned (enc, self)
  end.

(** The [while (index < segment_end)] of [case 0xc4]. *)
Fixpoint dht_loop (fuel : nat) (segment_end : Z) (enc : JPEGEncoded) (self : t)
    : outcome (JPEGEncoded * t) :=
  match fuel with
  | O => OutOfFuel
  | S fuel' =>
      if bool_decide (index self < segment_end)
      then
        c ← at_ (raw_data self) (index self);
        let table_class := Z.shiftr (Z.land (val c) 0xf0) 4 in
        let table_dest_id := Z.land (val c) 0x0f in
        let self := advance self 1 in
        '(table, self) ← parse_huffman_table self;
        enc ←
          (if bool_decide (table_class = 0)
           then
             tables ← store (huffman_dc_tables enc) table_dest_id table;
             mret {|
               metadata := metadata enc;
               q_tables := q_tables enc;
               q_tables_nbr := q_tables_nbr enc;
               huffman_ac_tables := huffman_ac_tables enc;
               huffman_dc_tables := tables |}
           else
             tables ← store (huffman_ac_tables enc) table_dest_id table;
             mret {|
               metadata := metadata enc;
               q_tables := q_tables enc;
               q_tables_nbr := q_tables_nbr enc;
               huffman_ac_tables := tables;
               huffman_dc_tables := huffman_dc_tables enc |});
        dht_loop fuel' segment_end enc self
      else Returned (enc, self)
  end.

(** The [switch (marker)] of lines 210-250. *)
Definition parse_segment (fuel : nat) (marker length segment_end : Z)
    (enc : JPEGEncoded) (self : t) : run (JPEGEncoded * t) :=
  if bool_decide (marker = 0xe0) then
    lift ('(jfif_data, self) ← parse_jfif_data self;
          mret ({|
            metadata := Some jfif_data;
            q_tables := q_tables enc;
            q_tables_nbr := q_tables_nbr enc;
            huffman_ac_tables := huffman_ac_tables enc;
            huffman_dc_tables := huffman_dc_tables enc |}, self))
  else if bool_decide (marker = 0xdb) then
    lift (dqt_loop fuel segment_end enc self)
  else if bool_decide (marker = 0xc4) then
    lift (dht_loop fuel segment_end enc self)
  else if bool_decide (marker = 0xc0) then
    mret (enc, advance self (length - 2))
  else if bool_decide (marker = 0xda) then
    mret (enc, advance self (u64 (size_ (raw_data self) - index self)))
  else
    _ ← print (IgnoredMarker marker length);
    mret (enc, advance self (length - 2)).

(** The body of the [while (index < raw_data.size())] of [parse]. *)
Definition parse_step (fuel : nat) (enc : JPEGEncoded) (self : t)
    : run (JPEGEncoded * t) :=
  let raw := raw_data self in
  b ← lift (at_ raw (index self));
  if bool_decide (val b = 0xff) then
    marker ← lift (at_ raw (u64 (index self + 1)));
    let self := advance self 2 in
    if bool_decide (val marker = 0xd8) || bool_decide (val marker = 0xd9)
    then mret (enc, self)
    else
      hi ← lift (at_ raw (index self));
      lo ← lift (at_ raw (u64 (index self + 1)));
      let length := u16 (Z.shiftl (val hi) 8 + val lo) in
      let segment_end := u64 (index self + length) in
      let self := advance self 2 in
      _ ← print (ParsingMarker (val marker) (index self));
      parse_segment fuel (val marker) length segment_end enc self
  else
    _ ← print (HexByte (val b));
    throw.

Fixpoint parse_loop (fuel inner : nat) (enc : JPEGEncoded) (self : t)
    : run (JPEGEncoded * t) :=
  match fuel with
  | O => lift OutOfFuel
  | S fuel' =>
      if bool_decide (index self < size_ (raw_data self))
      then
        '(enc, self) ← parse_step inner enc self;
        parse_loop fuel' inner enc self
      else mret (enc, self)
  end.

(** [parse]: the decoded header, and the parser object as the call leaves
    it.  No loop of [parse] runs more often than the buffer has bytes. *)
Definition parse (self : t) : run (JPEGEncoded * t) :=
  let fuel := S (List.length (raw_data self)) in
  parse_loop fuel fuel parse_init self.

End JPEGParser.

Abbreviation JPEGParser := JPEGParser.t.

(** ** The canonical walk as the specification words it

    Section 4.2, steps 2 and 3, of the specification, on integers that do
    not wrap: to be compared with [HuffmanTable.make_code_table]. *)

Fixpoint spec_walk (lengths : list Z) (code current_length : Z) : list Z :=
  match lengths with
  | [] => []
  | len :: rest =>
      (* while the length exceeds current_length: shift, increment *)
      let carries := Z.to_nat (len - current_length) in
      let code := Nat.iter carries (λ c, Z.shiftl c 1) code in
      let current_length := Nat.iter carries Z.succ current_length in
      (* assign; stop once current_length exceeds 16 or code reaches 0xFFFF *)
      if bool_decide (current_length > 16) || bool_decide (code = 0xffff)
      then [code]
      else code :: spec_walk rest (code + 1) current_length
  end.

Definition spec_code_table (lengths : list Z) : list Z :=
  match lengths with
  | [] => []
  | first :: _ => spec_walk lengths 0 first
  end.

(** ** Streams and tables the properties are checked on *)

(** [FF D8 FF E0 00 10 <14 APP0 bytes> FF D9]; [unit_byte] is the density
    unit and [w], [h] the thumbnail size. *)
Definition app0_stream (unit_byte w h : byte) : list byte :=
  [xff; xd8; xff; xe0; x00; x10;
   x4a; x46; x49; x46; x00; x01; x02; unit_byte; x00; x48; x00; x48; w; h;
   xff; xd9].

(** One table of a DQT payload: the precision/identifier byte, then the
    coefficients. *)
Definition dqt_table (id : byte) (coefficients : list byte) : list byte :=
  id :: coefficients.

(** A DQT segment of declared length 67 whose buffer ends 10 bytes before
    the 64 coefficient bytes are complete. *)
Definition truncated_dqt_stream : list byte :=
  [xff; xd8; xff; xdb; x00; x43] ++ dqt_table x00 (replicate 54 x10).

(** A DQT segment with two tables, both with identifier 2. *)
Definition two_tables_stream : list byte :=
  [xff; xd8; xff; xdb; x00; x84]
    ++ dqt_table x02 (replicate 64 x07) ++ dqt_table x02 (replicate 64 x09)
    ++ [xff; xd9].

(** Sixteen code counts: those of [l], then zeros. *)
Definition counts (l : list byte) : list byte :=
  l ++ replicate (16 - List.length l) x00.

(** A DQT segment with five tables. *)
Definition five_tables_stream : list byte :=
  [xff; xd8; xff; xdb; x01; x47]
    ++ dqt_table x00 (replicate 64 x01) ++ dqt_table x01 (replicate 64 x02)
    ++ dqt_table x02 (replicate 64 x03) ++ dqt_table x03 (replicate 64 x04)
    ++ dqt_table x00 (replicate 64 x05).

(** Three codes of length 1 and one of length 16: the running code is 3
    when the walk shifts it 15 times. *)
Definition oversubscribed_counts : list byte :=
  [x03; x00; x00; x00; x00; x00; x00; x00; x00; x00; x00; x00; x00; x00; x00; x01].

(** Two counts of 255: 510 codes. *)
Definition large_counts : list byte :=
  replicate 14 x00 ++ [xff; xff].

(** A DHT segment with two tables: a DC table for the destination 1 and an
    AC table for the destination 1, each with one code of length 1 and one
    of length 2. *)
Definition two_huffman_tables_stream : list byte :=
  [xff; xd8; xff; xc4; x00; x28]
    ++ [x01] ++ counts [x01; x01] ++ [x0a; x0b]
    ++ [x11] ++ counts [x01; x01] ++ [x0c; x0d]
    ++ [xff; xd9].

(** ** Predicates of the statements *)

(** The cursor of a parser object lies within the buffer, and the size of
    the buffer is one a [std::vector] can have. *)
Definition cursor_ok (self : JPEGParser) : Prop :=
  0 <= JPEGParser.index self <= size_ (JPEGParser.raw_data self)
  ∧ size_ (JPEGParser.raw_data self) < 2 ^ 63.

(** The outcomes of a function that has no [throw] and no [while]. *)
Definition returns_or_out_of_range {A : Type} (o : outcome A) : Prop :=
  (∃ a, o = Returned a) ∨ o = OutOfRange.

(** The coefficients of the table that starts at offset [i]. *)
Definition coefficients_at (raw : list byte) (i : Z) : list Z :=
  val <$> take 64 (drop (Z.to_nat (i + 1)) raw).

(** The class and the destination nibbles of the byte that heads a table of
    a DHT segment (lines 224 and 225). *)
Definition table_class_of (c : byte) : Z := Z.shiftr (Z.land (val c) 0xf0) 4.
Definition table_dest_id_of (c : byte) : Z := Z.land (val c) 0x0f.

(** The sizes of the arrays of [parse] and the range of its table count. *)
Definition tables_ok (enc : JPEGEncoded) : Prop :=
  List.length (q_tables enc) = 4%nat
  ∧ 0 <= q_tables_nbr enc <= 4
  ∧ List.length (huffman_ac_tables enc) = 32%nat
  ∧ List.length (huffman_dc_tables enc) = 32%nat.

(** The markers the [switch] of [parse] does not handle but by a skip, and
    what [parse] prints for one. *)
Definition skipped_marker (m : Z) : Prop :=
  m ≠ 0xd8 ∧ m ≠ 0xd9 ∧ m ≠ 0xe0 ∧ m ≠ 0xdb ∧ m ≠ 0xc4 ∧ m ≠ 0xda.

Definition skip_events (m length index : Z) : list event :=
  ParsingMarker m index
    :: (if bool_decide (m = 0xc0) then [] else [IgnoredMarker m length]).

(** * Properties *)

Import HuffmanTable JPEGParser.

(** ** The canonical Huffman builder on concrete tables *)

(** C1: on the code counts [0,1,0,...,0] with the symbol list [0xAB],
    [from_size_data] yields exactly the one code
    {length 2, code 0b00, value 0xAB}; on the counts [1,1,0,...,0] with the
    symbols [0x01, 0x02] it yields exactly the codes
    {length 1, code 0b0, value 0x01} and {length 2, code 0b10, value 0x02},
    in that order. *)
Theorem C1_reference_tables :
  from_size_data (counts [x00; x01]) [xab]
    = Returned (HuffmanTable.Build [HuffmanCode.Build 2 0 xab])
  ∧ from_size_data (counts [x01; x01]) [x01; x02]
    = Returned (HuffmanTable.Build
                  [HuffmanCode.Build 1 0 x01; HuffmanCode.Build 2 2 x02]).
Proof. split; vm_compute; reflexivity. Qed.

(** C2: on the counts [3,0,...,0,1] the fourth entry of the table carries
    the code 0x8000, the value 3 * 2^15 = 0x18000 of the walk wrapped
    modulo 2^16: [code <<= 1] wraps, and the test [code == 0xffff] of line 88
    comes too late to stop it. *)
Theorem C2_shift_wraps_the_code :
  from_size_data oversubscribed_counts [x0a; x0b; x0c; x0d]
    = Returned (HuffmanTable.Build
                  [HuffmanCode.Build 1 0 x0a; HuffmanCode.Build 1 1 x0b;
                   HuffmanCode.Build 1 2 x0c; HuffmanCode.Build 16 0x8000 x0d])
  ∧ spec_code_table (expand_sizes 0 oversubscribed_counts) = [0; 1; 2; 0x18000]
  ∧ make_code_table (expand_sizes 0 oversubscribed_counts)
    = Returned (u16 <$> [0; 1; 2; 0x18000])
  ∧ u16 0x18000 ≠ 0x18000.
Proof. repeat split; vm_compute; (reflexivity || discriminate). Qed.

(** C8: [from_size_data] performs an out-of-range access on inputs whose
    symbol list is as long as the sum of the counts: on sixteen zero counts
    with no symbol, [make_code_table] reads [sizes[0]] of an empty vector;
    on the counts [1,...,1,3] with 18 symbols the walk stops at the code
    0xffff, the code table has 17 entries and the pairing loop reads
    [code_table[17]]. *)
Theorem C8_out_of_range_accesses :
  foldl Z.add 0 (val <$> replicate 16 x00) = size_ (@nil byte)
  ∧ from_size_data (replicate 16 x00) [] = OutOfRange
  ∧ make_code_table (expand_sizes 0 (replicate 16 x00)) = OutOfRange
  ∧ foldl Z.add 0 (val <$> replicate 15 x01 ++ [x03]) = size_ (replicate 18 x2a)
  ∧ from_size_data (replicate 15 x01 ++ [x03]) (replicate 18 x2a) = OutOfRange
  ∧ (∃ code_table,
       make_code_table (expand_sizes 0 (replicate 15 x01 ++ [x03]))
         = Returned code_table
       ∧ List.length code_table = 17%nat
       ∧ last code_table = Some 0xffff
       ∧ at_ code_table 17 = OutOfRange).
Proof.
  repeat split; try (vm_compute; reflexivity).
  eexists. split; [vm_compute; reflexivity|].
  repeat split; vm_compute; reflexivity.
Qed.

(** ** Element accesses *)

Lemma u64_small z : 0 <= z < 2 ^ 64 → u64 z = z.
Proof. intros. unfold u64. by rewrite Z.mod_small. Qed.

Lemma val_range c : 0 <= val c < 256.
Proof.
  unfold val. pose proof (Byte.to_N_bounded c). lia.
Qed.

Lemma at_Returned {A} (v : list A) i x :
  at_ v i = Returned x ↔ 0 <= i ∧ v !! Z.to_nat i = Some x.
Proof.
  unfold at_. case_bool_decide; [|split; [done|lia]].
  destruct (v !! Z.to_nat i) eqn:E; split; try done.
  - intros [= ->]. done.
  - intros [_ [= ->]]. done.
  - intros [_ [=]].
Qed.

Lemma at_OutOfRange {A} (v : list A) i :
  at_ v i = OutOfRange ↔ i < 0 ∨ size_ v <= i.
Proof.
  unfold at_, size_. case_bool_decide; [|split; [lia|done]].
  destruct (v !! Z.to_nat i) eqn:E.
  - apply lookup_lt_Some in E. split; [done|lia].
  - apply lookup_ge_None in E. split; [lia|done].
Qed.

Lemma at_in_range {A} (v : list A) i :
  0 <= i < size_ v → ∃ x, at_ v i = Returned x.
Proof.
  intros [H0 H1]. unfold at_, size_ in *. rewrite bool_decide_true by done.
  destruct (lookup_lt_is_Some_2 v (Z.to_nat i)) as [x ->]; [lia|]. eauto.
Qed.

Lemma at_cases {A} (v : list A) i :
  (∃ x, at_ v i = Returned x ∧ 0 <= i < size_ v)
  ∨ (at_ v i = OutOfRange ∧ ¬ (0 <= i < size_ v)).
Proof.
  destruct (decide (0 <= i < size_ v)) as [H|H].
  - left. destruct (at_in_range v i H) as [x E]. eauto.
  - right. split; [|done]. apply at_OutOfRange. lia.
Qed.

Lemma range_Returned {A} (v : list A) i n l :
  range v i n = Returned l ↔
  (0 <= i ∧ 0 <= n ∧ i + n <= size_ v) ∧ l = take (Z.to_nat n) (drop (Z.to_nat i) v).
Proof.
  unfold range. case_bool_decide; split; try done.
  - intros [= <-]. done.
  - intros [_ ->]. done.
  - intros [? _]. done.
Qed.

Lemma range_OutOfRange {A} (v : list A) i n :
  range v i n = OutOfRange ↔ ¬ (0 <= i ∧ 0 <= n ∧ i + n <= size_ v).
Proof. unfold range. case_bool_decide; split; done. Qed.

Lemma range_length {A} (v : list A) i n l :
  range v i n = Returned l → size_ l = n.
Proof.
  intros [H ->]%range_Returned. unfold size_ in *.
  rewrite length_take, length_drop. lia.
Qed.

(** ** The segment decoders *)

Lemma parse_quantization_table_spec self :
  cursor_ok self →
  parse_quantization_table self =
    if bool_decide (index self + 65 <= size_ (raw_data self))
    then Returned (Build_QuantizationTable (coefficients_at (raw_data self) (index self)),
                   JPEGParser.Build (raw_data self) (index self + 65))
    else OutOfRange.
Proof.
  intros [H0 Hsz]. unfold parse_quantization_table.
  assert (2 ^ 63 < 2 ^ 64) by done.
  destruct (at_cases (raw_data self) (index self)) as [(c & -> & Hc)|[-> Hc]]; cbn.
  - unfold advance; cbn. rewrite (u64_small (index self + 1)) by lia.
    unfold range. case_bool_decide as Hr; case_bool_decide as Hr'; try lia; cbn; [|done].
    unfold coefficients_at. do 3 f_equal.
    rewrite u64_small by lia. lia.
  - rewrite bool_decide_false; [done|lia].
Qed.

Lemma foldl_add_shift (l : list Z) a :
  foldl Z.add a l = a + foldl Z.add 0 l.
Proof.
  revert a. induction l as [|x l IH]; intros a; cbn; [lia|].
  rewrite (IH (a + x)), (IH (0 + x)). lia.
Qed.

Lemma codes_count_range (size_data : list byte) :
  0 <= foldl Z.add 0 (val <$> size_data) <= 255 * size_ size_data.
Proof.
  unfold size_. induction size_data as [|c l IH]; cbn [fmap list_fmap foldl length]; [lia|].
  rewrite foldl_add_shift. pose proof (val_range c). lia.
Qed.

Lemma parse_huffman_table_spec self :
  cursor_ok self →
  parse_huffman_table self =
    if bool_decide (index self + 16 <= size_ (raw_data self))
    then
      let size_data := take 16 (drop (Z.to_nat (index self)) (raw_data self)) in
      let codes_count := foldl Z.add 0 (val <$> size_data) in
      if bool_decide (index self + 16 + codes_count <= size_ (raw_data self))
      then
        table ← from_size_data size_data
                  (take (Z.to_nat codes_count)
                     (drop (Z.to_nat (index self + 16)) (raw_data self)));
        mret (table, JPEGParser.Build (raw_data self) (index self + 16 + codes_count))
      else OutOfRange
    else OutOfRange.
Proof.
  intros [H0 Hsz]. unfold parse_huffman_table, range.
  assert (2 ^ 63 < 2 ^ 64) by done.
  case_bool_decide as Hr; case_bool_decide as Hr'; try lia; cbn; [|done].
  unfold advance; cbn. rewrite (u64_small (index self + 16)) by lia.
  set (size_data := take _ _).
  pose proof (codes_count_range size_data) as Hc.
  set (codes_count := foldl Z.add 0 _) in *.
  case_bool_decide as Hd; case_bool_decide as Hd'; try lia; cbn; [|done].
  rewrite (u64_small (index self + 16 + codes_count)) by lia.
  done.
Qed.

Lemma thumbnail_loop_Returned raw n i acc l :
  thumbnail_loop raw n i acc = Returned l →
  ∃ px, l = acc ++ px ∧ List.length px = n ∧
    ∀ (k : nat) rgb, px !! k = Some rgb →
      at_ raw (i + Z.of_nat k) = Returned (r rgb)
      ∧ at_ raw (i + Z.of_nat k + 1) = Returned (g rgb)
      ∧ at_ raw (i + Z.of_nat k + 2) = Returned (b rgb).
Proof.
  revert i acc. induction n as [|n IH]; intros i acc; cbn.
  - intros [= <-]. exists []. rewrite app_nil_r. repeat split; done.
  - destruct (at_ raw i) as [r0| | |] eqn:Er; cbn; try done.
    destruct (at_ raw (i + 1)) as [g0| | |] eqn:Eg; cbn; try done.
    destruct (at_ raw (i + 2)) as [b0| | |] eqn:Eb; cbn; try done.
    intros (px & -> & Hlen & Hpx)%IH.
    exists (Build_RGB r0 g0 b0 :: px). rewrite <- app_assoc. cbn.
    split; [done|]. split; [lia|].
    intros [|k] rgb; cbn.
    + intros [= <-]; cbn. rewrite Z.add_0_r. done.
    + intros Hk. destruct (Hpx k rgb Hk) as (? & ? & ?).
      replace (i + Z.of_nat (S k)) with (i + 1 + Z.of_nat k) by lia. done.
Qed.

Lemma thumbnail_loop_in_range raw n i acc :
  0 <= i → n = 0%nat ∨ i + Z.of_nat n + 2 <= size_ raw →
  ∃ l, thumbnail_loop raw n i acc = Returned l.
Proof.
  revert i acc. induction n as [|n IH]; intros i acc Hi Hn; cbn; [eauto|].
  destruct Hn as [|Hn]; [done|].
  destruct (at_in_range raw i) as [r0 ->]; [lia|].
  destruct (at_in_range raw (i + 1)) as [g0 ->]; [lia|].
  destruct (at_in_range raw (i + 2)) as [b0 ->]; [lia|]. cbn.
  apply IH; lia.
Qed.

Lemma parse_jfif_data_spec self :
  cursor_ok self →
  parse_jfif_data self =
    let raw := raw_data self in
    let i := index self in
    major ← at_ raw (i + 5);
    minor ← at_ raw (i + 6);
    unit_byte ← at_ raw (i + 7);
    x_hi ← at_ raw (i + 8);
    x_lo ← at_ raw (i + 9);
    y_hi ← at_ raw (i + 10);
    y_lo ← at_ raw (i + 11);
    x_thumbnail ← at_ raw (i + 12);
    y_thumbnail ← at_ raw (i + 13);
    thumbnail_data ←
      thumbnail_loop raw (Z.to_nat (val x_thumbnail * val y_thumbnail)) 0 [];
    mret (Build_JFIFData (Build_JFIFVersion major minor)
            (DensityUnit_cast (val unit_byte))
            (u8_to_u16 x_hi x_lo) (u8_to_u16 y_hi y_lo)
            x_thumbnail y_thumbnail thumbnail_data,
          JPEGParser.Build raw (i + 14)).
Proof.
  intros [H0 Hsz]. assert (2 ^ 63 < 2 ^ 64) by done.
  unfold parse_jfif_data, advance; cbn.
  rewrite (u64_small (index self + 5)) by lia.
  rewrite (u64_small (index self + 5 + 1)) by lia.
  rewrite (u64_small (index self + 5 + 2)) by lia.
  rewrite (u64_small (index self + 5 + 2 + 1)) by lia.
  rewrite (u64_small (index self + 5 + 2 + 1 + 1)) by lia.
  rewrite (u64_small (index self + 5 + 2 + 1 + 2)) by lia.
  rewrite (u64_small (index self + 5 + 2 + 1 + 3)) by lia.
  rewrite (u64_small (index self + 5 + 2 + 1 + 4)) by lia.
  rewrite (u64_small (index self + 5 + 2 + 1 + 4 + 1)) by lia.
  rewrite (u64_small (index self + 5 + 2 + 1 + 4 + 2)) by lia.
  replace (index self + 5 + 1) with (index self + 6) by lia.
  replace (index self + 5 + 2) with (index self + 7) by lia.
  replace (index self + 7 + 1 + 1) with (index self + 9) by lia.
  replace (index self + 7 + 1 + 2) with (index self + 10) by lia.
  replace (index self + 7 + 1 + 3) with (index self + 11) by lia.
  replace (index self + 7 + 1 + 4 + 1) with (index self + 13) by lia.
  replace (index self + 7 + 1 + 4 + 2) with (index self + 14) by lia.
  replace (index self + 7 + 1 + 4) with (index self + 12) by lia.
  replace (index self + 7 + 1) with (index self + 8) by lia.
  done.
Qed.

Lemma bind_Returned {A B} (m : outcome A) (k : A → outcome B) y :
  m ≫= k = Returned y ↔ ∃ x, m = Returned x ∧ k x = Returned y.
Proof.
  destruct m; cbn; split; try done; try (intros (? & ? & ?); done).
  - eauto.
  - intros (x & [= ->] & ?). done.
Qed.

Lemma parse_jfif_data_Returned self jfif self' :
  cursor_ok self →
  parse_jfif_data self = Returned (jfif, self') →
  index self + 14 <= size_ (raw_data self)
  ∧ self' = JPEGParser.Build (raw_data self) (index self + 14)
  ∧ at_ (raw_data self) (index self + 5) = Returned (major (version jfif))
  ∧ at_ (raw_data self) (index self + 6) = Returned (minor (version jfif))
  ∧ (∃ unit_byte, at_ (raw_data self) (index self + 7) = Returned unit_byte
       ∧ density_unit jfif = DensityUnit_cast (val unit_byte))
  ∧ at_ (raw_data self) (index self + 12) = Returned (x_thumbnail jfif)
  ∧ at_ (raw_data self) (index self + 13) = Returned (y_thumbnail jfif)
  ∧ thumbnail_loop (raw_data self)
      (Z.to_nat (val (x_thumbnail jfif) * val (y_thumbnail jfif))) 0 []
    = Returned (thumbnail_data jfif).
Proof.
  intros Hok. rewrite parse_jfif_data_spec by done. cbn zeta.
  intros (major & Hmajor & H)%bind_Returned.
  apply bind_Returned in H as (minor & Hminor & H).
  apply bind_Returned in H as (unit_byte & Hu & H).
  apply bind_Returned in H as (x_hi & _ & H).
  apply bind_Returned in H as (x_lo & _ & H).
  apply bind_Returned in H as (y_hi & _ & H).
  apply bind_Returned in H as (y_lo & _ & H).
  apply bind_Returned in H as (w & Hw & H).
  apply bind_Returned in H as (h & Hh & H).
  apply bind_Returned in H as (px & Hpx & H).
  injection H as <- <-. cbn.
  apply at_Returned in Hh as Hh'. destruct Hh' as [_ Hh'%lookup_lt_Some].
  unfold size_. repeat split; eauto. lia.
Qed.

Lemma parse_jfif_data_in_range self w h :
  cursor_ok self →
  at_ (raw_data self) (index self + 12) = Returned w →
  at_ (raw_data self) (index self + 13) = Returned h →
  val w * val h = 0 ∨ val w * val h + 2 <= size_ (raw_data self) →
  ∃ jfif, parse_jfif_data self
          = Returned (jfif, JPEGParser.Build (raw_data self) (index self + 14)).
Proof.
  intros Hok Hw Hh Hn. rewrite parse_jfif_data_spec by done. cbn zeta.
  destruct Hok as [H0 Hsz].
  apply at_Returned in Hh as Hh'. destruct Hh' as [_ Hh'%lookup_lt_Some].
  unfold size_ in *.
  destruct (at_in_range (raw_data self) (index self + 5)) as [? ->]; [unfold size_; lia|].
  destruct (at_in_range (raw_data self) (index self + 6)) as [? ->]; [unfold size_; lia|].
  destruct (at_in_range (raw_data self) (index self + 7)) as [? ->]; [unfold size_; lia|].
  destruct (at_in_range (raw_data self) (index self + 8)) as [? ->]; [unfold size_; lia|].
  destruct (at_in_range (raw_data self) (index self + 9)) as [? ->]; [unfold size_; lia|].
  destruct (at_in_range (raw_data self) (index self + 10)) as [? ->]; [unfold size_; lia|].
  destruct (at_in_range (raw_data self) (index self + 11)) as [? ->]; [unfold size_; lia|].
  rewrite Hw, Hh. cbn.
  destruct (thumbnail_loop_in_range (raw_data self)
              (Z.to_nat (val w * val h)) 0 []) as [px ->]; [done| |cbn; eauto].
  pose proof (val_range w). pose proof (val_range h). unfold size_. 
  destruct Hn as [Hn|Hn]; [left|right]; lia.
Qed.

(** ** The canonical Huffman builder *)

Lemma u8_range z : 0 <= u8 z <= 255.
Proof. unfold u8. pose proof (Z.mod_pos_bound z (2 ^ 8)). lia. Qed.

Lemma u8_small z : 0 <= z <= 255 → u8 z = z.
Proof. intros. unfold u8. rewrite Z.mod_small; lia. Qed.

Lemma shift_while_Returned fuel size code current_size :
  0 <= current_size → size <= 255 →
  (Z.to_nat (size - current_size) < fuel)%nat →
  ∃ code', shift_while fuel size code current_size
           = Returned (code', Z.max size current_size).
Proof.
  revert code current_size.
  induction fuel as [|fuel IH]; intros code cur Hc Hs Hf; [lia|]. cbn.
  case_bool_decide as Hgt.
  - rewrite u8_small by lia.
    destruct (IH (u16 (Z.shiftl code 1)) (cur + 1)) as [code' ->]; [lia..|].
    exists code'. do 2 f_equal. lia.
  - exists code. do 2 f_equal. lia.
Qed.

Lemma code_table_loop_Returned sizes code current_size code_table :
  0 <= current_size <= 255 →
  Forall (λ s, 0 <= s <= 255) sizes →
  ∃ new, code_table_loop sizes code current_size code_table
         = Returned (code_table ++ new)
       ∧ (List.length new <= List.length sizes)%nat
       ∧ (sizes ≠ [] → new ≠ []).
Proof.
  intros Hc Hs. revert code current_size code_table Hc.
  induction Hs as [|size rest Hsize Hrest IH]; intros code cur acc Hc;
    cbn -[shift_while].
  - exists []. rewrite app_nil_r. done.
  - destruct (shift_while_Returned 256 size code cur) as [code' ->]; [lia..|]. cbn.
    destruct (_ || _).
    + exists [code']. cbn. repeat split; [lia|done].
    + destruct (IH (u16 (code' + 1)) (Z.max size cur) (acc ++ [code']))
        as (new & -> & Hlen & _); [lia|].
      exists (code' :: new). rewrite <- app_assoc. cbn. repeat split; [lia|done].
Qed.

Lemma expand_sizes_range i size_data :
  Forall (λ s, 0 <= s <= 255) (expand_sizes i size_data).
Proof.
  revert i. induction size_data as [|n rest IH]; intros i; cbn; [done|].
  apply Forall_app. split; [|done].
  apply Forall_replicate. apply u8_range.
Qed.

Lemma expand_sizes_length i size_data :
  size_ (expand_sizes i size_data) = foldl Z.add 0 (val <$> size_data).
Proof.
  unfold size_. revert i. induction size_data as [|n rest IH]; intros i; cbn; [done|].
  rewrite length_app, length_replicate, foldl_add_shift, Nat2Z.inj_add, IH.
  pose proof (val_range n). lia.
Qed.

Lemma make_code_table_cases sizes :
  Forall (λ s, 0 <= s <= 255) sizes →
  (sizes = [] ∧ make_code_table sizes = OutOfRange)
  ∨ (∃ code_table, make_code_table sizes = Returned code_table
       ∧ (0 < List.length code_table <= List.length sizes)%nat).
Proof.
  intros Hs. unfold make_code_table. destruct sizes as [|first rest]; [left; done|right].
  change (at_ (first :: rest) 0) with (Returned first). cbn [mbind outcome_bind].
  destruct (code_table_loop_Returned (first :: rest) 0 first []) as (new & -> & Hlen & Hne);
    [by apply Forall_cons_1 in Hs as [? _]|done|].
  exists new. split; [done|]. destruct new; [by destruct Hne|cbn in *; lia].
Qed.

Lemma code_table_loop_sentinel sizes code current_size code_table l :
  code_table_loop sizes code current_size code_table = Returned l →
  ∃ new, l = code_table ++ new
    ∧ ∀ k : nat, (S k < List.length new)%nat → new !! k ≠ Some 0xffff.
Proof.
  revert code current_size code_table.
  induction sizes as [|size rest IH]; intros code cur acc; cbn -[shift_while].
  - intros [= <-]. exists []. rewrite app_nil_r. split; [done|]. cbn. lia.
  - destruct (shift_while 256 size code cur) as [[code' cur']| | |];
      cbn [mbind outcome_bind]; try done.
    destruct (bool_decide (cur' > 16)); cbn [orb].
    + intros [= <-]. exists [code']. split; [done|]. cbn. lia.
    + case_bool_decide as Hne.
      * intros [= <-]. exists [code']. split; [done|]. cbn. lia.
      * intros (new & -> & Hnew)%IH. exists (code' :: new).
        rewrite <- app_assoc. split; [done|].
        intros [|k] Hk; cbn; [congruence|]. apply Hnew. cbn in Hk. lia.
Qed.

(** X4: the test of line 88: the sentinel 0xffff can only be the last entry
    of a code table, no entry follows it. *)
Lemma make_code_table_stops_at_sentinel sizes code_table :
  make_code_table sizes = Returned code_table →
  ∀ k : nat, (S k < List.length code_table)%nat → code_table !! k ≠ Some 0xffff.
Proof.
  unfold make_code_table.
  intros (first & _ & (new & -> & Hnew)%code_table_loop_sentinel)%bind_Returned.
  done.
Qed.

Lemma pair_codes_Returned codes_length code_table i data_area acc l :
  0 <= i →
  pair_codes codes_length code_table i data_area acc = Returned l →
  ∃ new, l = acc ++ new ∧ List.length new = List.length data_area
    ∧ ∀ (k : nat) d, data_area !! k = Some d →
        ∃ len c, at_ codes_length (i + Z.of_nat k) = Returned len
               ∧ at_ code_table (i + Z.of_nat k) = Returned c
               ∧ new !! k = Some (HuffmanCode.Build len c d).
Proof.
  revert i acc. induction data_area as [|d rest IH]; intros i acc Hi; cbn.
  - intros [= <-]. exists []. rewrite app_nil_r. done.
  - intros (len & Hl & (c & Hc & H)%bind_Returned)%bind_Returned.
    apply IH in H as (new & -> & Hlen & Hnew); [|lia].
    exists (HuffmanCode.Build len c d :: new). rewrite <- app_assoc. cbn.
    split; [done|]. split; [lia|].
    intros [|k] d'; cbn.
    + intros [= <-]. rewrite Z.add_0_r. eauto.
    + intros Hk. replace (i + Z.of_nat (S k)) with (i + 1 + Z.of_nat k) by lia. eauto.
Qed.

Lemma pair_codes_in_range codes_length code_table i data_area acc :
  0 <= i →
  i + size_ data_area <= size_ codes_length →
  i + size_ data_area <= size_ code_table →
  ∃ l, pair_codes codes_length code_table i data_area acc = Returned l.
Proof.
  unfold size_. revert i acc.
  induction data_area as [|d rest IH]; intros i acc Hi Hl Hc; cbn in *; [eauto|].
  destruct (at_in_range codes_length i) as [? ->]; [unfold size_; lia|].
  destruct (at_in_range code_table i) as [? ->]; [unfold size_; lia|]. cbn.
  apply IH; lia.
Qed.

Lemma pair_codes_outcome codes_length code_table i data_area acc :
  returns_or_out_of_range (pair_codes codes_length code_table i data_area acc).
Proof.
  unfold returns_or_out_of_range.
  revert i acc. induction data_area as [|d rest IH]; intros i acc; cbn; [eauto|].
  destruct (at_cases codes_length i) as [(? & -> & _)|[-> _]]; [|by right].
  destruct (at_cases code_table i) as [(? & -> & _)|[-> _]]; [|by right]. cbn.
  apply IH.
Qed.

Lemma from_size_data_outcome size_data data_area :
  returns_or_out_of_range (from_size_data size_data data_area).
Proof.
  unfold returns_or_out_of_range.
  unfold from_size_data.
  destruct (make_code_table_cases (expand_sizes 0 size_data))
    as [[_ ->]|(code_table & -> & _)]; [apply expand_sizes_range|by right|]. cbn.
  destruct (pair_codes_outcome (expand_sizes 0 size_data) code_table 0 data_area [])
    as [[l ->]| ->]; cbn; eauto.
Qed.

Lemma from_size_data_Returned size_data data_area t :
  from_size_data size_data data_area = Returned t →
  ∃ code_table,
    make_code_table (expand_sizes 0 size_data) = Returned code_table
    ∧ size_ data_area <= size_ code_table
    ∧ List.length (codes t) = List.length data_area
    ∧ ∀ (k : nat) d, data_area !! k = Some d →
        ∃ len c, expand_sizes 0 size_data !! k = Some len
               ∧ code_table !! k = Some c
               ∧ codes t !! k = Some (HuffmanCode.Build len c d).
Proof.
  unfold from_size_data.
  intros (code_table & Hct & (l & Hl & [= <-])%bind_Returned)%bind_Returned.
  apply pair_codes_Returned in Hl as (new & -> & Hlen & Hnew); [|done].
  exists code_table. cbn. split; [done|]. split; [|split; [done|]].
  - unfold size_. destruct (decide (data_area = [])) as [->|Hne]; [cbn; lia|].
    destruct (lookup_lt_is_Some_2 data_area (Nat.pred (List.length data_area)))
      as [d Hd]; [destruct data_area; [done|cbn; lia]|].
    destruct (Hnew _ _ Hd) as (len & c & _ & [_ Hc%lookup_lt_Some]%at_Returned & _).
    lia.
  - intros k d Hd. destruct (Hnew k d Hd) as (len & c & Hl & Hc & Hn).
    apply at_Returned in Hl as [_ Hl]. apply at_Returned in Hc as [_ Hc].
    rewrite Z.add_0_l, Nat2Z.id in Hl, Hc. eauto.
Qed.

Lemma from_size_data_in_range size_data data_area code_table :
  make_code_table (expand_sizes 0 size_data) = Returned code_table →
  size_ data_area <= size_ code_table →
  ∃ t, from_size_data size_data data_area = Returned t.
Proof.
  intros Hct Hlen. unfold from_size_data. rewrite Hct. cbn.
  destruct (make_code_table_cases (expand_sizes 0 size_data))
    as [[_ E]|(ct & E & Hle)]; [apply expand_sizes_range|congruence|].
  rewrite Hct in E. injection E as <-.
  destruct (pair_codes_in_range (expand_sizes 0 size_data) code_table 0 data_area [])
    as [l ->]; [done|unfold size_ in *; lia..|]. cbn. eauto.
Qed.

(** ** The code walk against the walk of the specification *)

Lemma iter_shift_nonneg n code :
  0 <= code → code <= Nat.iter n (λ c, Z.shiftl c 1) code.
Proof.
  intros Hc. induction n as [|n IH]; [done|]. rewrite Nat.iter_succ.
  rewrite Z.shiftl_mul_pow2 by lia. change (2 ^ 1) with 2. lia.
Qed.

Lemma shift_while_exact fuel size code current_size :
  0 <= code → 0 <= current_size → size <= 255 →
  (Z.to_nat (size - current_size) < fuel)%nat →
  Nat.iter (Z.to_nat (size - current_size)) (λ c, Z.shiftl c 1) code < 2 ^ 16 →
  shift_while fuel size code current_size
  = Returned (Nat.iter (Z.to_nat (size - current_size)) (λ c, Z.shiftl c 1) code,
              Nat.iter (Z.to_nat (size - current_size)) Z.succ current_size).
Proof.
  revert code current_size.
  induction fuel as [|fuel IH]; intros code cur Hc Hcur Hs Hf Hlt; [lia|].
  cbn [shift_while]. case_bool_decide as Hgt.
  - replace (Z.to_nat (size - cur)) with (S (Z.to_nat (size - (cur + 1)))) in * by lia.
    rewrite !Nat.iter_succ_r in *.
    assert (code <= Z.shiftl code 1)
      by (rewrite Z.shiftl_mul_pow2 by lia; change (2 ^ 1) with 2; lia).
    pose proof (iter_shift_nonneg (Z.to_nat (size - (cur + 1))) (Z.shiftl code 1)).
    rewrite u8_small by lia. unfold u16. rewrite Z.mod_small by lia.
    change (Z.succ cur) with (cur + 1). apply IH; [lia|lia|done|lia|done].
  - replace (Z.to_nat (size - cur)) with 0%nat by lia. done.
Qed.

Lemma code_table_loop_agrees_with_spec sizes code current_size code_table :
  0 <= code → 0 <= current_size <= 255 →
  Forall (λ s, 0 <= s <= 255) sizes →
  Forall (λ c, c < 2 ^ 16) (spec_walk sizes code current_size) →
  code_table_loop sizes code current_size code_table
  = Returned (code_table ++ spec_walk sizes code current_size).
Proof.
  intros Hc Hcur Hs. revert code current_size code_table Hc Hcur.
  induction Hs as [|size rest Hsize Hrest IH]; intros code cur acc Hc Hcur Hlt;
    cbn [code_table_loop spec_walk] in *.
  - by rewrite app_nil_r.
  - set (n := Z.to_nat (size - cur)) in *.
    set (code' := Nat.iter n (λ c, Z.shiftl c 1) code) in *.
    set (cur' := Nat.iter n Z.succ cur) in *.
    assert (Hcode' : code <= code') by (by apply iter_shift_nonneg).
    assert (Hcur' : cur' = Z.max size cur).
    { subst cur' n. clear -Hsize Hcur.
      destruct (decide (size <= cur)) as [Hle|Hgt].
      - replace (Z.to_nat (size - cur)) with 0%nat by lia. cbn. lia.
      - replace (Z.max size cur) with (cur + Z.of_nat (Z.to_nat (size - cur))) by lia.
        generalize (Z.to_nat (size - cur)). intros n.
        induction n as [|n IHn]; [cbn; lia|]. rewrite Nat.iter_succ. lia. }
    assert (Hhead : code' < 2 ^ 16).
    { destruct (_ || _); by apply Forall_cons_1 in Hlt as [? _]. }
    rewrite (shift_while_exact 256 size code cur) by (done || lia).
    fold n code' cur'. cbn [mbind outcome_bind].
    destruct (_ || _) eqn:Hstop; [done|].
    apply orb_false_iff in Hstop as [_ Hne%bool_decide_eq_false].
    apply Forall_cons_1 in Hlt as [_ Hlt].
    unfold u16 at 1. rewrite Z.mod_small by lia.
    rewrite IH by (done || lia). by rewrite <- app_assoc.
Qed.

(** Where no code of the specification's walk reaches 2^16, the code table
    of [make_code_table] is that walk. *)
Theorem make_code_table_agrees_with_spec (sizes : list Z) :
  sizes ≠ [] →
  Forall (λ s, 0 <= s <= 255) sizes →
  Forall (λ c, c < 2 ^ 16) (spec_code_table sizes) →
  make_code_table sizes = Returned (spec_code_table sizes).
Proof.
  intros Hne Hs Hlt. destruct sizes as [|first rest]; [done|].
  unfold make_code_table, spec_code_table in *.
  change (at_ (first :: rest) 0) with (Returned first). cbn [mbind outcome_bind].
  apply Forall_cons_1 in Hs as Hs'. destruct Hs' as [Hfirst _].
  by rewrite code_table_loop_agrees_with_spec.
Qed.

Lemma make_code_table_agrees_with_spec_witness :
  make_code_table (expand_sizes 0 (counts [x01; x01]))
  = Returned (spec_code_table (expand_sizes 0 (counts [x01; x01]))).
Proof.
  apply (make_code_table_agrees_with_spec (expand_sizes 0 (counts [x01; x01]))).
  - by vm_compute.
  - apply expand_sizes_range.
  - vm_compute. repeat constructor.
Defined.

(** ** The loops of [parse] *)

Lemma store_Returned {A} (v : list A) i x v' :
  store v i x = Returned v' ↔ 0 <= i < size_ v ∧ v' = <[Z.to_nat i := x]> v.
Proof.
  unfold store. case_bool_decide; split; try done.
  - intros [= <-]. done.
  - intros [_ ->]. done.
  - intros [? _]. done.
Qed.

Lemma dqt_loop_Returned fuel segment_end enc self enc' self' :
  cursor_ok self →
  List.length (q_tables enc) = 4%nat →
  0 <= q_tables_nbr enc <= 4 →
  dqt_loop fuel segment_end enc self = Returned (enc', self') →
  ∃ n : nat,
    q_tables_nbr enc' = q_tables_nbr enc + Z.of_nat n
    ∧ q_tables_nbr enc' <= 4
    ∧ self' = JPEGParser.Build (raw_data self) (index self + 65 * Z.of_nat n)
    ∧ List.length (q_tables enc') = 4%nat
    ∧ (∀ k : nat, (k < n)%nat →
         q_tables enc' !! (Z.to_nat (q_tables_nbr enc) + k)%nat
         = Some (Build_QuantizationTable
                   (coefficients_at (raw_data self) (index self + 65 * Z.of_nat k))))
    ∧ (∀ j : nat, (j < Z.to_nat (q_tables_nbr enc)
                   ∨ Z.to_nat (q_tables_nbr enc) + n <= j)%nat →
         q_tables enc' !! j = q_tables enc !! j).
Proof.
  revert enc self. induction fuel as [|fuel IH]; intros enc self Hok Hlen Hnbr; [done|].
  cbn. case_bool_decide as Hlt.
  - rewrite parse_quantization_table_spec by done.
    case_bool_decide as Hin; [|done]. cbn.
    intros (tables & [Hi ->]%store_Returned & H)%bind_Returned.
    unfold size_ in Hi. rewrite u8_small in H by lia.
    apply IH in H as (n & Hn & Hle & -> & Hlen' & Htab & Hrest); cbn in *.
    + exists (S n). split; [lia|]. split; [lia|]. split; [f_equal; lia|].
      split; [done|]. split.
      * intros [|k] Hk.
        -- rewrite Hrest by lia. rewrite Nat.add_0_r, Z.mul_0_r, Z.add_0_r.
           apply list_lookup_insert_eq. lia.
        -- specialize (Htab k ltac:(lia)).
           replace (Z.to_nat (q_tables_nbr enc) + S k)%nat
             with (Z.to_nat (q_tables_nbr enc + 1) + k)%nat by lia.
           rewrite Htab. do 3 f_equal. lia.
      * intros j Hj. rewrite Hrest by lia. apply list_lookup_insert_ne. lia.
    + destruct Hok as [? ?]. split; cbn; [lia|done].
    + rewrite length_insert. done.
    + lia.
  - intros [= <- <-]. exists 0%nat.
    split; [lia|]. split; [lia|]. split; [destruct self; cbn; f_equal; lia|].
    split; [done|]. split; [lia|done].
Qed.

(** *** The decoders neither throw nor loop *)

Lemma returns_or_out_of_range_bind {A B} (m : outcome A) (k : A → outcome B) :
  returns_or_out_of_range m → (∀ x, returns_or_out_of_range (k x)) →
  returns_or_out_of_range (m ≫= k).
Proof. intros [[x ->]| ->] Hk; cbn; [apply Hk|by right]. Qed.

Lemma returns_or_out_of_range_ret {A} (x : A) :
  returns_or_out_of_range (mret x).
Proof. left. by exists x. Qed.

Lemma at_outcome {A} (v : list A) i : returns_or_out_of_range (at_ v i).
Proof. destruct (at_cases v i) as [(x & -> & _)|[-> _]]; [left|right]; eauto. Qed.

Lemma range_outcome {A} (v : list A) i n : returns_or_out_of_range (range v i n).
Proof. unfold range. case_bool_decide; [left|right]; eauto. Qed.

Lemma store_outcome {A} (v : list A) i x : returns_or_out_of_range (store v i x).
Proof. unfold store. case_bool_decide; [left|right]; eauto. Qed.

Ltac outcome_step :=
  first
    [ apply returns_or_out_of_range_ret
    | apply returns_or_out_of_range_bind;
      [ first [ apply at_outcome | apply range_outcome | apply store_outcome ]
      | intros ? ] ].

Lemma thumbnail_loop_outcome raw n i acc :
  returns_or_out_of_range (thumbnail_loop raw n i acc).
Proof.
  revert i acc. induction n as [|n IH]; intros i acc; cbn [thumbnail_loop].
  - left. eauto.
  - do 3 outcome_step. apply IH.
Qed.

Lemma parse_jfif_data_outcome self :
  returns_or_out_of_range (parse_jfif_data self).
Proof.
  unfold parse_jfif_data. cbn zeta. do 9 outcome_step.
  apply returns_or_out_of_range_bind; [apply thumbnail_loop_outcome|intros ?].
  outcome_step.
Qed.

Lemma parse_quantization_table_outcome self :
  returns_or_out_of_range (parse_quantization_table self).
Proof. unfold parse_quantization_table. cbn zeta. do 3 outcome_step. Qed.

Lemma parse_huffman_table_outcome self :
  returns_or_out_of_range (parse_huffman_table self).
Proof.
  unfold parse_huffman_table. cbn zeta. do 2 outcome_step.
  apply returns_or_out_of_range_bind; [apply from_size_data_outcome|intros ?].
  outcome_step.
Qed.

Lemma returns_or_out_of_range_not_Terminated {A} (o : outcome A) :
  returns_or_out_of_range o → o ≠ Terminated.
Proof. intros [[x ->]| ->]; done. Qed.

Lemma dqt_loop_not_Terminated fuel segment_end enc self :
  dqt_loop fuel segment_end enc self ≠ Terminated.
Proof.
  revert enc self. induction fuel as [|fuel IH]; intros enc self; cbn [dqt_loop]; [done|].
  case_bool_decide; [|done].
  destruct (parse_quantization_table_outcome self) as [[[table self1] ->]| ->];
    cbn [mbind outcome_bind]; [|done].
  destruct (store_outcome (q_tables enc) (q_tables_nbr enc) table) as [[tables ->]| ->];
    cbn [mbind outcome_bind]; [|done].
  apply IH.
Qed.

Lemma dht_loop_not_Terminated fuel segment_end enc self :
  dht_loop fuel segment_end enc self ≠ Terminated.
Proof.
  revert enc self. induction fuel as [|fuel IH]; intros enc self; cbn [dht_loop]; [done|].
  case_bool_decide; [|done].
  destruct (at_outcome (raw_data self) (index self)) as [[c ->]| ->];
    cbn [mbind outcome_bind]; [|done].
  destruct (parse_huffman_table_outcome (advance self 1)) as [[[table self1] ->]| ->];
    cbn [mbind outcome_bind]; [|done].
  case_bool_decide;
    (match goal with
     | |- context [store ?v ?i ?x] =>
         destruct (store_outcome v i x) as [[tables ->]| ->]
     end; cbn [mbind outcome_bind mret outcome_ret]; [apply IH|done]).
Qed.

Lemma parse_segment_not_Terminated fuel marker length segment_end enc self out :
  parse_segment fuel marker length segment_end enc self ≠ (out, Terminated).
Proof.
  unfold parse_segment, lift.
  repeat case_bool_decide; try done.
  - intros [= _ E]. revert E.
    destruct (parse_jfif_data_outcome self) as [[[jfif self1] ->]| ->]; done.
  - intros [= _ E]. by apply dqt_loop_not_Terminated in E.
  - intros [= _ E]. by apply dht_loop_not_Terminated in E.
Qed.

(** *** The scanning loop *)

Lemma parse_step_bad_byte inner enc self c :
  at_ (raw_data self) (index self) = Returned c →
  val c ≠ 0xff →
  parse_step inner enc self = ([HexByte (val c)], Terminated).
Proof.
  intros Hc Hne. unfold parse_step. cbn zeta. rewrite Hc. cbn.
  rewrite bool_decide_false by done. done.
Qed.

Lemma parse_step_Terminated inner enc self out :
  parse_step inner enc self = (out, Terminated) →
  ∃ c, at_ (raw_data self) (index self) = Returned c
       ∧ val c ≠ 0xff ∧ out = [HexByte (val c)].
Proof.
  unfold parse_step. cbn zeta.
  destruct (at_cases (raw_data self) (index self)) as [(c & -> & _)|[-> _]];
    cbn; [|done].
  case_bool_decide as Hff; [|intros [= <-]; eauto].
  destruct (at_cases (raw_data self) (u64 (index self + 1)))
    as [(marker & -> & _)|[-> _]]; cbn; [|done].
  destruct (_ || _); [done|].
  do 2 match goal with
       | |- context [at_ ?v ?i] =>
           destruct (at_cases v i) as [(? & -> & _)|[-> _]]; cbn; [|done]
       end.
  destruct (parse_segment _ _ _ _ _ _) as [out' o] eqn:E.
  destruct o; try done.
  by apply parse_segment_not_Terminated in E.
Qed.

Lemma parse_loop_Terminated fuel inner enc self out :
  parse_loop fuel inner enc self = (out, Terminated) →
  ∃ c, val c ≠ 0xff ∧ last out = Some (HexByte (val c)).
Proof.
  revert enc self out.
  induction fuel as [|fuel IH]; intros enc self out; cbn [parse_loop]; [done|].
  case_bool_decide; [|done].
  destruct (parse_step inner enc self) as [out1 [[enc1 self1]| | |]] eqn:Estep;
    cbn [mbind run_bind]; try done.
  - destruct (parse_loop fuel inner enc1 self1) as [out2 o] eqn:Eloop.
    intros [= <- ->]. destruct (IH _ _ _ Eloop) as (c & Hc & Hlast).
    exists c. split; [done|]. rewrite last_app, Hlast. done.
  - intros [= <-]. apply parse_step_Terminated in Estep as (c & _ & Hc & ->). eauto.
Qed.

Lemma parse_jfif_data_short self :
  cursor_ok self →
  size_ (raw_data self) < index self + 14 →
  parse_jfif_data self = OutOfRange.
Proof.
  intros Hok Hshort. rewrite parse_jfif_data_spec by done. cbn zeta.
  repeat match goal with
         | |- context [at_ ?v (index self + ?k)] =>
             destruct (at_cases v (index self + k)) as [(? & -> & ?)|[-> _]];
             cbn [mbind outcome_bind]; [|done]
         end.
  lia.
Qed.

(** ** The claims on the segment decoders *)

(** C3, as the code has it: no read or skip of the parser is checked
    against the size of the buffer and no error is raised.  A decoder that
    returns has moved the cursor by exactly the bytes it consumed (65 for a
    quantization table, 16 and the sum of the counts for a Huffman table,
    14 for the JFIF header); a decoder called with fewer bytes left than it
    reads accesses the buffer out of range; the skip of a segment, for
    SOF0 (lines 237-240) and for every marker of the default branch (lines
    246-249), moves the cursor by the declared length less 2 without
    looking at the buffer. *)
Theorem C3_reads_are_not_bounds_checked (self : JPEGParser) :
  cursor_ok self →
  let raw := raw_data self in
  let i := index self in
  (i + 65 <= size_ raw →
     ∃ table, parse_quantization_table self
              = Returned (table, JPEGParser.Build raw (i + 65)))
  ∧ (size_ raw < i + 65 → parse_quantization_table self = OutOfRange)
  ∧ (size_ raw < i + 16 → parse_huffman_table self = OutOfRange)
  ∧ (∀ size_data, range raw i 16 = Returned size_data →
       size_ raw < i + 16 + foldl Z.add 0 (val <$> size_data) →
       parse_huffman_table self = OutOfRange)
  ∧ (∀ table self', parse_huffman_table self = Returned (table, self') →
       ∃ size_data, range raw i 16 = Returned size_data
         ∧ self' = JPEGParser.Build raw (i + 16 + foldl Z.add 0 (val <$> size_data)))
  ∧ (size_ raw < i + 14 → parse_jfif_data self = OutOfRange)
  ∧ (∀ jfif self', parse_jfif_data self = Returned (jfif, self') →
       self' = JPEGParser.Build raw (i + 14))
  ∧ (∀ fuel marker length segment_end enc,
       marker ≠ 0xe0 → marker ≠ 0xdb → marker ≠ 0xc4 → marker ≠ 0xda →
       parse_segment fuel marker length segment_end enc self
       = ((if bool_decide (marker = 0xc0) then []
           else [IgnoredMarker marker length]),
          Returned (enc, advance self (length - 2)))).
Proof.
  intros Hok raw i. subst raw i.
  assert (Hi := proj1 Hok). repeat split.
  - intros Hin. rewrite parse_quantization_table_spec, bool_decide_true by done. eauto.
  - intros Hshort.
    rewrite parse_quantization_table_spec, bool_decide_false by (done || lia). done.
  - intros Hshort.
    rewrite parse_huffman_table_spec, bool_decide_false by (done || lia). done.
  - intros size_data [Hr ->]%range_Returned Hshort.
    change (Z.to_nat 16) with 16%nat in Hshort.
    rewrite parse_huffman_table_spec, bool_decide_true by (done || lia). cbn zeta.
    rewrite bool_decide_false by lia. done.
  - intros table self'. rewrite parse_huffman_table_spec by done.
    case_bool_decide as Hin; [|done]. cbn zeta.
    case_bool_decide as Hin'; [|done].
    intros (t & _ & [= _ <-])%bind_Returned.
    eexists. split; [|done]. apply range_Returned. split; [lia|done].
  - intros Hshort. by apply parse_jfif_data_short.
  - intros jfif self' H. by apply parse_jfif_data_Returned in H as (_ & -> & _).
  - intros fuel marker length segment_end enc He0 Hdb Hc4 Hda.
    unfold parse_segment.
    rewrite (bool_decide_false (marker = 224)), (bool_decide_false (marker = 219)),
      (bool_decide_false (marker = 196)), (bool_decide_false (marker = 218)) by done.
    by case_bool_decide.
Qed.

Lemma C3_reads_are_not_bounds_checked_witness :
  parse_quantization_table (JPEGParser.Build truncated_dqt_stream 6) = OutOfRange
  ∧ parse_segment 0 0xe1 1000 1004 parse_init (JPEGParser.Build truncated_dqt_stream 6)
    = ([IgnoredMarker 0xe1 1000],
       Returned (parse_init, JPEGParser.Build truncated_dqt_stream 1004)).
Proof.
  split.
  - refine (proj1 (proj2 (C3_reads_are_not_bounds_checked
                            (JPEGParser.Build truncated_dqt_stream 6) _)) _).
    + split; [split|]; by vm_compute.
    + by vm_compute.
  - refine (proj2 (proj2 (proj2 (proj2 (proj2 (proj2 (proj2
              (C3_reads_are_not_bounds_checked
                 (JPEGParser.Build truncated_dqt_stream 6) _)))))))
              0%nat 0xe1 1000 1004 parse_init _ _ _ _).
    + split; [split|]; by vm_compute.
    + done.
    + done.
    + done.
    + done.
Defined.

(** C3 fails on the code: the DQT segment that declares length 67 and whose
    buffer ends 10 bytes before the coefficients are complete is read past
    the end of the buffer; no error is raised. *)
Lemma C3_truncated_dqt_is_read_out_of_range :
  size_ truncated_dqt_stream = 4 + 67 - 10
  ∧ parse (JPEGParser.Build truncated_dqt_stream 0)
    = ([ParsingMarker 0xdb 6], OutOfRange).
Proof. split; by vm_compute. Qed.

(** C4: [parse_jfif_data] reads the version at offsets 5 and 6 of the
    payload and the thumbnail size at offsets 12 and 13, and returns,
    whenever the buffer holds the bytes it reads, a pixel list of exactly
    width * height triples; the bytes of the triple number [k] are the
    bytes of the whole buffer at the absolute offsets [k], [k + 1],
    [k + 2], counted from the beginning of the stream, whatever the offset
    of the cursor, which the call leaves 14 bytes further. *)
Theorem C4_thumbnail_is_read_from_buffer_start (self : JPEGParser) :
  cursor_ok self →
  let raw := raw_data self in
  let i := index self in
  (∀ w h, at_ raw (i + 12) = Returned w → at_ raw (i + 13) = Returned h →
     val w * val h = 0 ∨ val w * val h + 2 <= size_ raw →
     ∃ jfif, parse_jfif_data self = Returned (jfif, JPEGParser.Build raw (i + 14)))
  ∧ (∀ jfif self', parse_jfif_data self = Returned (jfif, self') →
       self' = JPEGParser.Build raw (i + 14)
       ∧ at_ raw (i + 5) = Returned (major (version jfif))
       ∧ at_ raw (i + 6) = Returned (minor (version jfif))
       ∧ at_ raw (i + 12) = Returned (x_thumbnail jfif)
       ∧ at_ raw (i + 13) = Returned (y_thumbnail jfif)
       ∧ size_ (thumbnail_data jfif)
         = val (x_thumbnail jfif) * val (y_thumbnail jfif)
       ∧ ∀ (k : nat) rgb, thumbnail_data jfif !! k = Some rgb →
           raw !! k = Some (r rgb)
           ∧ raw !! (k + 1)%nat = Some (g rgb)
           ∧ raw !! (k + 2)%nat = Some (b rgb)).
Proof.
  intros Hok raw i. subst raw i. split.
  - intros w h Hw Hh Hn. by apply (parse_jfif_data_in_range self w h).
  - intros jfif self' H.
    apply parse_jfif_data_Returned in H
      as (_ & -> & Hmajor & Hminor & _ & Hw & Hh & Hloop); [|done].
    apply thumbnail_loop_Returned in Hloop as (px & Hpx & Hlen & Hrgb).
    cbn in Hpx. subst px. do 5 (split; [done|]). split.
    + unfold size_. rewrite Hlen.
      pose proof (val_range (x_thumbnail jfif)).
      pose proof (val_range (y_thumbnail jfif)). lia.
    + intros k rgb Hk. destruct (Hrgb k rgb Hk) as (Hr & Hg & Hb).
      apply at_Returned in Hr as [_ Hr]. apply at_Returned in Hg as [_ Hg].
      apply at_Returned in Hb as [_ Hb].
      replace (Z.to_nat (0 + Z.of_nat k)) with k in Hr by lia.
      replace (Z.to_nat (0 + Z.of_nat k + 1)) with (k + 1)%nat in Hg by lia.
      replace (Z.to_nat (0 + Z.of_nat k + 2)) with (k + 2)%nat in Hb by lia.
      done.
Qed.

Lemma C4_thumbnail_is_read_from_buffer_start_witness :
  ∃ jfif,
    parse_jfif_data (JPEGParser.Build (app0_stream x01 x01 x02) 6)
    = Returned (jfif, JPEGParser.Build (app0_stream x01 x01 x02) 20)
    ∧ size_ (thumbnail_data jfif) = val (x_thumbnail jfif) * val (y_thumbnail jfif)
    ∧ ∀ (k : nat) rgb, thumbnail_data jfif !! k = Some rgb →
        app0_stream x01 x01 x02 !! k = Some (r rgb)
        ∧ app0_stream x01 x01 x02 !! (k + 1)%nat = Some (g rgb)
        ∧ app0_stream x01 x01 x02 !! (k + 2)%nat = Some (b rgb).
Proof.
  assert (Hok : cursor_ok (JPEGParser.Build (app0_stream x01 x01 x02) 6))
    by (split; [split|]; by vm_compute).
  destruct (C4_thumbnail_is_read_from_buffer_start _ Hok) as [Hret Hres].
  destruct (Hret x01 x02 eq_refl eq_refl) as [jfif Hj].
  - right. by vm_compute.
  - exists jfif. split; [exact Hj|].
    destruct (Hres jfif _ Hj) as (_ & _ & _ & _ & _ & Hsize & Hpx).
    split; [exact Hsize|exact Hpx].
Defined.

(** C10, as the code has it: [parse_jfif_data] casts the density-unit byte
    to the enumeration without a check and never fails on it: the bytes 0,
    1 and 2 give [NoUnit], [PixelPerInch] and [PixelPerCm], and any other
    byte gives the value of the enumeration's underlying type with that
    number; whether the call returns depends on the size of the buffer and
    of the thumbnail only. *)
Theorem C10_density_unit_is_cast_unchecked (self : JPEGParser) :
  cursor_ok self →
  let raw := raw_data self in
  let i := index self in
  (∀ jfif self', parse_jfif_data self = Returned (jfif, self') →
     ∃ unit_byte, at_ raw (i + 7) = Returned unit_byte
       ∧ (val unit_byte = 0 → density_unit jfif = NoUnit)
       ∧ (val unit_byte = 1 → density_unit jfif = PixelPerInch)
       ∧ (val unit_byte = 2 → density_unit jfif = PixelPerCm)
       ∧ (2 < val unit_byte → density_unit jfif = Unnamed (val unit_byte)))
  ∧ (∀ w h, at_ raw (i + 12) = Returned w → at_ raw (i + 13) = Returned h →
       val w * val h = 0 ∨ val w * val h + 2 <= size_ raw →
       ∃ jfif, parse_jfif_data self = Returned (jfif, JPEGParser.Build raw (i + 14))).
Proof.
  intros Hok raw i. subst raw i. split.
  - intros jfif self' H.
    apply parse_jfif_data_Returned in H as (_ & _ & _ & _ & (c & Hc & ->) & _);
      [|done].
    exists c. split; [done|]. unfold DensityUnit_cast.
    repeat split; intros Hv; repeat case_bool_decide; done || lia.
  - intros w h Hw Hh Hn. by apply (parse_jfif_data_in_range self w h).
Qed.

Lemma C10_density_unit_is_cast_unchecked_witness :
  ∃ jfif,
    parse_jfif_data (JPEGParser.Build (app0_stream x07 x00 x00) 6)
    = Returned (jfif, JPEGParser.Build (app0_stream x07 x00 x00) 20)
    ∧ density_unit jfif = Unnamed 7.
Proof.
  assert (Hok : cursor_ok (JPEGParser.Build (app0_stream x07 x00 x00) 6))
    by (split; [split|]; by vm_compute).
  destruct (C10_density_unit_is_cast_unchecked _ Hok) as [Hres Hret].
  destruct (Hret x00 x00 eq_refl eq_refl) as [jfif Hj].
  - left. by vm_compute.
  - exists jfif. split; [exact Hj|].
    destruct (Hres jfif _ Hj) as (c & Hc & _ & _ & _ & Hother).
    injection Hc as <-. apply Hother. by vm_compute.
Defined.

(** C10 fails on the code: with the density-unit byte 3 the call returns,
    and the density unit of the header is the unnamed value 3. *)
Lemma C10_unknown_density_unit_is_accepted :
  ∃ jfif self',
    parse_jfif_data (JPEGParser.Build (app0_stream x03 x00 x00) 6)
    = Returned (jfif, self')
    ∧ density_unit jfif = Unnamed 3.
Proof. do 2 eexists. split; [by vm_compute|done]. Qed.

(** C9, as the code has it: for the payload of a DQT table, a
    precision/identifier byte followed by 64 coefficient bytes, at any
    place of a buffer, [parse_quantization_table] returns a table with
    those 64 values in wire order and moves the cursor past them.  The
    table is the same for every precision/identifier byte: a
    [QuantizationTable] holds the coefficients only. *)
Theorem C9_coefficients_round_trip (before : list byte) (id : byte)
    (coefficients after : list byte) :
  List.length coefficients = 64%nat →
  size_ (before ++ dqt_table id coefficients ++ after) < 2 ^ 63 →
  parse_quantization_table
    (JPEGParser.Build (before ++ dqt_table id coefficients ++ after) (size_ before))
  = Returned (Build_QuantizationTable (val <$> coefficients),
              JPEGParser.Build (before ++ dqt_table id coefficients ++ after)
                (size_ before + 65)).
Proof.
  intros Hlen Hsz. rewrite parse_quantization_table_spec; cbn [raw_data index].
  - unfold size_ in *. revert Hsz.
    rewrite !length_app. cbn [dqt_table length]. rewrite Hlen. intros Hsz.
    rewrite bool_decide_true by lia. do 3 f_equal.
    unfold coefficients_at.
    replace (Z.to_nat (Z.of_nat (List.length before) + 1))
      with (List.length before + 1)%nat by lia.
    rewrite <- drop_drop, drop_app_length. cbn [dqt_table drop].
    unfold dqt_table. cbn [app drop]. rewrite drop_0, take_app_length'; done.
  - unfold cursor_ok; cbn [raw_data index]. unfold size_ in *.
    rewrite length_app in Hsz |- *. lia.
Qed.

Lemma C9_coefficients_round_trip_witness :
  parse_quantization_table
    (JPEGParser.Build ([xff; xdb; x00; x43] ++ dqt_table x02 (replicate 64 x07) ++ [])
       (size_ [xff; xdb; x00; x43]))
  = Returned (Build_QuantizationTable (val <$> replicate 64 x07),
              JPEGParser.Build
                ([xff; xdb; x00; x43] ++ dqt_table x02 (replicate 64 x07) ++ [])
                (size_ [xff; xdb; x00; x43] + 65)).
Proof.
  apply (C9_coefficients_round_trip [xff; xdb; x00; x43] x02 (replicate 64 x07) []).
  - reflexivity.
  - by vm_compute.
Defined.

(** C9 fails on the code: the table returned does not carry the identifier.
    No function of the table gives the identifier back, as the payloads with
    the identifiers 0 and 1 and the same coefficients decode to the same
    table. *)
Lemma C9_identifier_is_not_carried :
  ¬ ∃ identifier_of : QuantizationTable → Z,
      ∀ id coefficients table self',
        0 <= val id <= 3 →
        List.length coefficients = 64%nat →
        parse_quantization_table (JPEGParser.Build (dqt_table id coefficients) 0)
        = Returned (table, self') →
        identifier_of table = val id.
Proof.
  intros [identifier_of H].
  assert (H0 := H x00 (replicate 64 x07) _ _ ltac:(by vm_compute) eq_refl eq_refl).
  assert (H1 := H x01 (replicate 64 x07) _ _ ltac:(by vm_compute) eq_refl eq_refl).
  vm_compute in H0, H1. congruence.
Qed.

(** C5, as the code has it: the loop of a DQT segment stores the tables it
    decodes in the order of their arrival: the table number [k] of the
    segment goes to the slot [q_tables_nbr + k], whatever its identifier
    nibble, [q_tables_nbr] counts the tables stored, the other slots keep
    their tables, and a run that returns has stored at most 4 tables. *)
Theorem C5_tables_are_stored_in_arrival_order (fuel : nat) (segment_end : Z)
    (enc enc' : JPEGEncoded) (self self' : JPEGParser) :
  cursor_ok self →
  List.length (q_tables enc) = 4%nat →
  0 <= q_tables_nbr enc <= 4 →
  dqt_loop fuel segment_end enc self = Returned (enc', self') →
  ∃ n : nat,
    q_tables_nbr enc' = q_tables_nbr enc + Z.of_nat n
    ∧ q_tables_nbr enc' <= 4
    ∧ index self' = index self + 65 * Z.of_nat n
    ∧ (∀ k : nat, (k < n)%nat →
         q_tables enc' !! (Z.to_nat (q_tables_nbr enc) + k)%nat
         = Some (Build_QuantizationTable
                   (coefficients_at (raw_data self) (index self + 65 * Z.of_nat k))))
    ∧ (∀ j : nat, (j < Z.to_nat (q_tables_nbr enc)
                   ∨ Z.to_nat (q_tables_nbr enc) + n <= j)%nat →
         q_tables enc' !! j = q_tables enc !! j).
Proof.
  intros Hok Hlen Hnbr H.
  destruct (dqt_loop_Returned _ _ _ _ _ _ Hok Hlen Hnbr H)
    as (n & Hn & Hle & -> & _ & Htab & Hrest).
  exists n. repeat split; done.
Qed.

Lemma C5_tables_are_stored_in_arrival_order_witness :
  ∃ enc' self',
    dqt_loop 3 136 parse_init (JPEGParser.Build two_tables_stream 6)
    = Returned (enc', self')
    ∧ ∃ n : nat,
        q_tables_nbr enc' = 0 + Z.of_nat n
        ∧ q_tables_nbr enc' <= 4
        ∧ index self' = 6 + 65 * Z.of_nat n
        ∧ (∀ k : nat, (k < n)%nat →
             q_tables enc' !! (Z.to_nat 0 + k)%nat
             = Some (Build_QuantizationTable
                       (coefficients_at two_tables_stream (6 + 65 * Z.of_nat k))))
        ∧ (∀ j : nat, (j < Z.to_nat 0 ∨ Z.to_nat 0 + n <= j)%nat →
             q_tables enc' !! j = q_tables parse_init !! j).
Proof.
  do 2 eexists. split; [by vm_compute|].
  apply (C5_tables_are_stored_in_arrival_order 3 136 parse_init _
           (JPEGParser.Build two_tables_stream 6)).
  - split; [split|]; by vm_compute.
  - reflexivity.
  - by vm_compute.
  - by vm_compute.
Defined.

(** C5 fails on the code: of two tables that both carry the identifier 2,
    the first is stored in slot 0 and the second in slot 1; slot 2 keeps
    the zero table it was initialised with, and two tables are counted. *)
Lemma C5_identifier_does_not_select_the_slot :
  ∃ out enc self',
    parse (JPEGParser.Build two_tables_stream 0) = (out, Returned (enc, self'))
    ∧ q_tables enc !! 0%nat = Some (Build_QuantizationTable (replicate 64 7))
    ∧ q_tables enc !! 1%nat = Some (Build_QuantizationTable (replicate 64 9))
    ∧ q_tables enc !! 2%nat = Some (Build_QuantizationTable (replicate 64 0))
    ∧ q_tables_nbr enc = 2.
Proof. do 3 eexists. split; [by vm_compute|]. repeat split. Qed.

(** ** The claims on the scanning loop *)

(** C6, as the code has it: when the byte at the cursor of the scanning
    loop is not 0xFF, the loop body writes the value of that byte (not its
    offset) to the output and executes [throw;] with no exception to
    rethrow, which ends the program: no error value is made, nothing is
    caught and the loop does not go on.  This is the only place where the
    loop body throws. *)
Theorem C6_bad_marker_prefix_terminates (fuel inner : nat) (enc : JPEGEncoded)
    (self : JPEGParser) (c : byte) :
  at_ (raw_data self) (index self) = Returned c →
  (val c ≠ 0xff →
     parse_step inner enc self = ([HexByte (val c)], Terminated)
     ∧ parse_loop (S fuel) inner enc self = ([HexByte (val c)], Terminated))
  ∧ (∀ out, parse_step inner enc self = (out, Terminated) →
       val c ≠ 0xff ∧ out = [HexByte (val c)])
  ∧ (∀ out, parse_loop fuel inner enc self = (out, Terminated) →
       ∃ c', val c' ≠ 0xff ∧ last out = Some (HexByte (val c'))).
Proof.
  intros Hc. split; [|split].
  - intros Hne. pose proof (parse_step_bad_byte inner enc self c Hc Hne) as Hstep.
    split; [done|]. cbn [parse_loop].
    apply at_Returned in Hc as [H0 Hc%lookup_lt_Some].
    rewrite bool_decide_true by (unfold size_; lia).
    rewrite Hstep. done.
  - intros out (c' & Hc' & Hne & ->)%parse_step_Terminated.
    rewrite Hc in Hc'. injection Hc' as <-. done.
  - intros out. apply parse_loop_Terminated.
Qed.

Lemma C6_bad_marker_prefix_terminates_witness :
  parse_step 4 parse_init (JPEGParser.Build [xff; xd8; x41] 2)
  = ([HexByte 0x41], Terminated)
  ∧ parse_loop 4 4 parse_init (JPEGParser.Build [xff; xd8; x41] 2)
    = ([HexByte 0x41], Terminated).
Proof.
  refine (proj1 (C6_bad_marker_prefix_terminates 3 4 parse_init
                   (JPEGParser.Build [xff; xd8; x41] 2) x41 _) _).
  - reflexivity.
  - by vm_compute.
Defined.

(** C6 fails on the code: on the stream FF D8 41 the byte at offset 2 is
    not a marker prefix; the run ends in [std::terminate], and what it has
    reported is the value 0x41 of the byte, not the offset 2. *)
Lemma C6_the_byte_is_reported_not_the_offset :
  at_ [xff; xd8; x41] 2 = Returned x41
  ∧ parse (JPEGParser.Build [xff; xd8; x41] 0) = ([HexByte 0x41], Terminated)
  ∧ HexByte 0x41 ≠ HexByte 2.
Proof. repeat split; by vm_compute. Qed.

(** ** The claims on the Huffman builder *)

(** C7, as the code has it: [from_size_data] checks nothing and raises no
    error.  Its outcome is a table or an out-of-range access; it returns a
    table whenever the code table made from the counts has an entry for
    every symbol, and the table then has exactly one code per symbol, with
    the symbol as its value, also when the symbol list is shorter than the
    sum of the counts or the sum exceeds 256. *)
Theorem C7_the_builder_validates_nothing (size_data data_area : list byte) :
  returns_or_out_of_range (from_size_data size_data data_area)
  ∧ (∀ code_table,
       make_code_table (expand_sizes 0 size_data) = Returned code_table →
       size_ data_area <= size_ code_table →
       ∃ table, from_size_data size_data data_area = Returned table)
  ∧ (∀ table, from_size_data size_data data_area = Returned table →
       List.length (codes table) = List.length data_area
       ∧ size_ data_area <= foldl Z.add 0 (val <$> size_data)
       ∧ ∀ (k : nat) d, data_area !! k = Some d →
           ∃ c, codes table !! k = Some c ∧ HuffmanCode.value c = d
                ∧ expand_sizes 0 size_data !! k = Some (HuffmanCode.length c)).
Proof.
  split; [apply from_size_data_outcome|]. split.
  - apply from_size_data_in_range.
  - intros table H.
    apply from_size_data_Returned in H as (code_table & Hct & Hle & Hlen & Hk).
    split; [done|]. split.
    + destruct (make_code_table_cases (expand_sizes 0 size_data))
        as [[_ E]|(ct & E & Hct')]; [apply expand_sizes_range|congruence|].
      rewrite Hct in E. injection E as <-.
      rewrite <- (expand_sizes_length 0). unfold size_ in *. lia.
    + intros k d Hd. destruct (Hk k d Hd) as (len & c & Hl & _ & Hc).
      eexists. split; [exact Hc|]. done.
Qed.

Lemma C7_the_builder_validates_nothing_witness :
  ∃ table, from_size_data (counts [x02]) [x2a] = Returned table
    ∧ List.length (codes table) = List.length [x2a].
Proof.
  destruct (C7_the_builder_validates_nothing (counts [x02]) [x2a])
    as (_ & Hret & Hres).
  destruct (Hret [0; 1] eq_refl) as [table Ht]; [by vm_compute|].
  exists table. split; [exact Ht|]. exact (proj1 (Hres table Ht)).
Defined.

(** C7 fails on the code: with the counts [1,0,...,0] and no symbol the
    lengths differ and a table is returned; with two counts of 255 and 510
    symbols the total exceeds 256 and a table of 510 codes is returned. *)
Lemma C7_malformed_input_is_accepted :
  foldl Z.add 0 (val <$> counts [x01]) = 1
  ∧ from_size_data (counts [x01]) [] = Returned (HuffmanTable.Build [])
  ∧ foldl Z.add 0 (val <$> large_counts) = 510
  ∧ ∃ table, from_size_data large_counts (replicate 510 x2a) = Returned table
      ∧ List.length (codes table) = 510%nat.
Proof.
  repeat split; try by vm_compute.
  eexists. split; by vm_compute.
Qed.

(** ** The fuel of [parse] suffices *)

Lemma dqt_loop_progress fuel segment_end enc self :
  cursor_ok self →
  (Z.to_nat (size_ (raw_data self) - index self) < fuel)%nat →
  match dqt_loop fuel segment_end enc self with
  | Returned (_, self') =>
      raw_data self' = raw_data self ∧ index self <= index self' ∧ cursor_ok self'
  | OutOfFuel => False
  | _ => True
  end.
Proof.
  revert enc self. induction fuel as [|fuel IH]; intros enc self Hok Hfuel; [lia|].
  cbn [dqt_loop]. case_bool_decide; [|done].
  rewrite parse_quantization_table_spec by done.
  case_bool_decide as Hin; [|done]. cbn [mbind outcome_bind].
  destruct (store_outcome (q_tables enc) (q_tables_nbr enc)
              (Build_QuantizationTable (coefficients_at (raw_data self) (index self))))
    as [[tables ->]| ->]; cbn [mbind outcome_bind]; [|done].
  match goal with
  | |- match dqt_loop _ _ ?e ?s with _ => _ end => specialize (IH e s)
  end.
  destruct Hok as [Hi Hsz]. cbn [raw_data index] in IH.
  destruct (dqt_loop _ _ _ _) as [[enc' self']| | |]; try done.
  - destruct IH as (-> & Hle & Hok'); [split; cbn; [lia|done]|lia|].
    repeat split; [lia|apply Hok'..].
  - apply IH; [split; cbn; [lia|done]|lia].
Qed.

Lemma dht_loop_progress fuel segment_end enc self :
  cursor_ok self →
  (Z.to_nat (size_ (raw_data self) - index self) < fuel)%nat →
  match dht_loop fuel segment_end enc self with
  | Returned (_, self') =>
      raw_data self' = raw_data self ∧ index self <= index self' ∧ cursor_ok self'
  | OutOfFuel => False
  | _ => True
  end.
Proof.
  revert enc self. induction fuel as [|fuel IH]; intros enc self Hok Hfuel; [lia|].
  cbn [dht_loop]. case_bool_decide; [|done].
  destruct (at_cases (raw_data self) (index self)) as [(c & -> & Hc)|[-> _]];
    cbn [mbind outcome_bind]; [|done].
  destruct Hok as [Hi Hsz]. assert (2 ^ 63 < 2 ^ 64) by done.
  assert (Hok1 : cursor_ok (advance self 1)).
  { unfold advance. split; cbn [raw_data index]; [|done].
    rewrite u64_small by lia. lia. }
  rewrite (parse_huffman_table_spec _ Hok1). clear Hok1.
  unfold advance. cbn [raw_data index]. rewrite (u64_small (index self + 1)) by lia.
  pose proof (codes_count_range
                (take 16 (drop (Z.to_nat (index self + 1)) (raw_data self)))) as Hcount.
  cbn zeta. set (codes_count := foldl Z.add 0 _) in *.
  destruct (decide (index self + 1 + 16 <= size_ (raw_data self))) as [Hin|Hin];
    [rewrite (bool_decide_true (index self + 1 + 16 <= _)) by done
    |rewrite (bool_decide_false (index self + 1 + 16 <= _)) by done; done].
  destruct (decide (index self + 1 + 16 + codes_count <= size_ (raw_data self)))
    as [Hin'|Hin'];
    [rewrite (bool_decide_true (index self + 1 + 16 + codes_count <= _)) by done
    |rewrite (bool_decide_false (index self + 1 + 16 + codes_count <= _)) by done; done].
  destruct (from_size_data_outcome
              (take 16 (drop (Z.to_nat (index self + 1)) (raw_data self)))
              (take (Z.to_nat codes_count)
                 (drop (Z.to_nat (index self + 1 + 16)) (raw_data self))))
    as [[table ->]| ->]; cbn [mbind outcome_bind mret outcome_ret]; [|done].
  case_bool_decide;
    (match goal with
     | |- context [store ?v ?i ?x] =>
         destruct (store_outcome v i x) as [[tables ->]| ->]
     end; cbn [mbind outcome_bind mret outcome_ret]; [|done]);
    (match goal with
     | |- match dht_loop _ _ ?e ?s with _ => _ end => specialize (IH e s)
     end;
     cbn [raw_data index] in IH;
     destruct (dht_loop _ _ _ _) as [[enc' self']| | |]; try done;
     [ destruct IH as (-> & Hle & Hok'); [split; cbn; [lia|done]|lia|];
       repeat split; [lia|apply Hok'..]
     | apply IH; [split; cbn; [lia|done]|lia] ]).
Qed.

Lemma parse_segment_progress inner marker length segment_end enc self :
  cursor_ok self → 2 <= index self → 0 <= length < 2 ^ 16 →
  (List.length (raw_data self) < inner)%nat →
  match parse_segment inner marker length segment_end enc self with
  | (_, Returned (_, self')) =>
      raw_data self' = raw_data self ∧ index self - 2 <= index self'
  | (_, OutOfFuel) => False
  | _ => True
  end.
Proof.
  intros Hok H2 Hlen Hinner. assert (Hok' := Hok). destruct Hok' as [Hi Hsz].
  assert (2 ^ 63 < 2 ^ 64) by done.
  assert (Hfuel : (Z.to_nat (size_ (raw_data self) - index self) < inner)%nat)
    by (unfold size_ in *; lia).
  assert (Hskip : index self - 2 <= u64 (index self + (length - 2))).
  { assert (2 ^ 16 < 2 ^ 63) by done. rewrite u64_small; lia. }
  unfold parse_segment, lift. repeat case_bool_decide.
  - destruct (parse_jfif_data self) as [[jfif self']| | |] eqn:E;
      cbn [mbind outcome_bind mret outcome_ret]; try done.
    + apply parse_jfif_data_Returned in E as (_ & -> & _); [|done].
      split; [done|cbn; lia].
    + by destruct (parse_jfif_data_outcome self) as [[? E']|E']; rewrite E in E'.
  - pose proof (dqt_loop_progress inner segment_end enc self Hok Hfuel) as Hp.
    destruct (dqt_loop _ _ _ _) as [[enc' self']| | |]; try done.
    destruct Hp as (-> & ? & _). split; [done|lia].
  - pose proof (dht_loop_progress inner segment_end enc self Hok Hfuel) as Hp.
    destruct (dht_loop _ _ _ _) as [[enc' self']| | |]; try done.
    destruct Hp as (-> & ? & _). split; [done|lia].
  - cbn. done.
  - cbn. split; [done|].
    rewrite (u64_small (size_ _ - _)) by lia. rewrite u64_small by lia. lia.
  - cbn. done.
Qed.

Lemma parse_step_progress inner enc self :
  cursor_ok self → index self < size_ (raw_data self) →
  (List.length (raw_data self) < inner)%nat →
  match parse_step inner enc self with
  | (_, Returned (_, self')) =>
      raw_data self' = raw_data self ∧ index self + 2 <= index self'
  | (_, OutOfFuel) => False
  | _ => True
  end.
Proof.
  intros [Hi Hsz] Hlt Hinner. assert (2 ^ 63 < 2 ^ 64) by done.
  unfold parse_step. cbn zeta.
  destruct (at_cases (raw_data self) (index self)) as [(c & -> & _)|[-> _]];
    cbn [lift mbind run_bind]; [|done].
  case_bool_decide as Hff; [|done].
  rewrite (u64_small (index self + 1)) by lia.
  destruct (at_cases (raw_data self) (index self + 1)) as [(marker & -> & Hm)|[-> _]];
    cbn [lift mbind run_bind]; [|done].
  unfold advance. cbn [raw_data index].
  rewrite (u64_small (index self + 2)) by lia.
  destruct (_ || _); [cbn; split; [done|lia]|].
  destruct (at_cases (raw_data self) (index self + 2)) as [(hi & -> & Hhi)|[-> _]];
    cbn [lift mbind run_bind]; [|done].
  rewrite (u64_small (index self + 2 + 1)) by lia.
  destruct (at_cases (raw_data self) (index self + 2 + 1)) as [(lo & -> & Hlo)|[-> _]];
    cbn [lift mbind run_bind]; [|done].
  rewrite (u64_small (index self + 2 + 2)) by lia.
  cbn [print app].
  match goal with
  | |- context [parse_segment ?f ?m ?l ?e ?enc ?s] =>
      pose proof (parse_segment_progress f m l e enc s) as Hp;
      destruct (parse_segment f m l e enc s) as [out [[enc' self']| | |]]
  end; try done.
  - cbn [raw_data index] in Hp. destruct Hp as [Hraw Hle].
    + split; cbn [raw_data index]; [lia|done].
    + lia.
    + unfold u16. apply Z.mod_pos_bound. done.
    + done.
    + split; [done|lia].
  - apply Hp; [split|..]; cbn [raw_data index]; [lia|done|lia| |done].
    unfold u16. apply Z.mod_pos_bound. done.
Qed.

Lemma parse_loop_fuel fuel inner enc self :
  0 <= index self → size_ (raw_data self) < 2 ^ 63 →
  (Z.to_nat (size_ (raw_data self) - index self) < fuel)%nat →
  (List.length (raw_data self) < inner)%nat →
  (parse_loop fuel inner enc self).2 ≠ OutOfFuel.
Proof.
  revert enc self.
  induction fuel as [|fuel IH]; intros enc self Hi Hsz Hfuel Hinner; [lia|].
  cbn [parse_loop]. case_bool_decide as Hlt; [|done].
  pose proof (parse_step_progress inner enc self) as Hp.
  destruct (parse_step inner enc self) as [out [[enc' self']| | |]];
    cbn [mbind run_bind]; try done.
  - destruct Hp as [Hraw Hle]; [split; [lia|done]|done..|].
    specialize (IH enc' self'). rewrite Hraw in IH.
    destruct (parse_loop fuel inner enc' self') as [out' o]. cbn in *.
    apply IH; [lia|done|lia|done].
  - destruct Hp; [split; [lia|done]|done..].
Qed.

(** X2: [parse] terminates.  The loops of [parse] are never cut off: on
    every buffer a [std::vector] can hold, no loop of [parse] runs more
    often than the buffer has bytes, and [parse] returns, goes out of range
    or terminates the program. *)
Theorem parse_fuel_suffices (self : JPEGParser) :
  0 <= index self → size_ (raw_data self) < 2 ^ 63 →
  (parse self).2 ≠ OutOfFuel.
Proof.
  intros Hi Hsz. unfold parse. cbn zeta.
  apply parse_loop_fuel; [done..| |lia]. unfold size_. lia.
Qed.

Lemma parse_fuel_suffices_witness :
  size_ (app0_stream x01 x00 x00) < 2 ^ 63
  ∧ (parse (JPEGParser.Build (app0_stream x01 x00 x00) 0)).2 ≠ OutOfFuel.
Proof.
  split; [by vm_compute|].
  apply (parse_fuel_suffices (JPEGParser.Build (app0_stream x01 x00 x00) 0));
    by vm_compute.
Defined.

(** ** Whole streams *)

(** The stream [FF D8 FF E0 00 10 <14 APP0 bytes> FF D9] of the
    specification: one APP0 segment is parsed and the parse returns at the
    end of the buffer. *)
Example parse_app0_stream :
  ∃ enc,
    parse (JPEGParser.Build (app0_stream x01 x00 x00) 0)
    = ([ParsingMarker 0xe0 6],
       Returned (enc, JPEGParser.Build (app0_stream x01 x00 x00) 22))
    ∧ metadata enc
      = Some (Build_JFIFData (Build_JFIFVersion x01 x02) PixelPerInch 72 72
                x00 x00 []).
Proof. eexists. split; by vm_compute. Qed.

(** A fifth quantization table is stored past the end of [q_tables]. *)
Example parse_five_tables_stream :
  parse (JPEGParser.Build five_tables_stream 0)
  = ([ParsingMarker 0xdb 6], OutOfRange).
Proof. by vm_compute. Qed.

(** * Further properties of the code *)

(** ** The code walk of [make_code_table] *)

Lemma u16_range z : 0 <= u16 z < 2 ^ 16.
Proof. unfold u16. apply Z.mod_pos_bound. done. Qed.

Lemma u16_small z : 0 <= z < 2 ^ 16 → u16 z = z.
Proof. intros. unfold u16. by rewrite Z.mod_small. Qed.

Lemma u16_mul_l a c : u16 (u16 a * c) = u16 (a * c).
Proof. unfold u16. by rewrite Z.mul_mod_idemp_l. Qed.

Lemma shift_while_value fuel size code current_size :
  0 <= current_size <= size → size <= 255 → 0 <= code < 2 ^ 16 →
  (Z.to_nat (size - current_size) < fuel)%nat →
  shift_while fuel size code current_size
  = Returned (u16 (code * 2 ^ (size - current_size)), size).
Proof.
  revert code current_size.
  induction fuel as [|fuel IH]; intros code cur Hcur Hs Hc Hf; [lia|].
  cbn [shift_while]. case_bool_decide as Hgt.
  - rewrite u8_small by lia.
    rewrite IH by (apply u16_range || lia).
    rewrite Z.shiftl_mul_pow2 by lia. rewrite u16_mul_l.
    do 3 f_equal. replace (size - cur) with (Z.succ (size - (cur + 1))) by lia.
    rewrite Z.pow_succ_r by lia. change (2 ^ 1) with 2. lia.
  - replace (size - cur) with 0 by lia. rewrite Z.mul_1_r, u16_small by done.
    do 2 f_equal. lia.
Qed.

Lemma code_table_loop_recurrence sizes code current_size code_table l :
  code_table_loop sizes code current_size code_table = Returned l →
  0 <= code < 2 ^ 16 → 0 <= current_size →
  Forall (λ s, s <= 255) sizes →
  (∀ s, head sizes = Some s → current_size <= s) →
  (∀ (k : nat) s s', sizes !! k = Some s → sizes !! S k = Some s' → s <= s') →
  ∃ new, l = code_table ++ new
    ∧ (∀ s, head sizes = Some s →
         head new = Some (u16 (code * 2 ^ (s - current_size))))
    ∧ (∀ (k : nat) c c' s s',
         new !! k = Some c → new !! S k = Some c' →
         sizes !! k = Some s → sizes !! S k = Some s' →
         c' = u16 ((c + 1) * 2 ^ (s' - s))).
Proof.
  revert code current_size code_table.
  induction sizes as [|size rest IH]; intros code cur acc Hl Hc Hcur Hs Hhd Hsorted.
  - cbn in Hl. injection Hl as <-. exists []. rewrite app_nil_r. done.
  - cbn -[shift_while] in Hl.
    apply Forall_cons_1 in Hs as [Hsize Hrest].
    specialize (Hhd size eq_refl).
    rewrite shift_while_value in Hl by lia. cbn [mbind outcome_bind] in Hl.
    set (code' := u16 (code * 2 ^ (size - cur))) in *.
    destruct (_ || _).
    + injection Hl as <-. exists [code']. split; [done|]. split.
      * intros s [= <-]. done.
      * intros k c c' s s' _ Hk. by destruct k.
    + apply IH in Hl as (new & -> & Hhead & Hrec).
      * exists (code' :: new). rewrite <- app_assoc. split; [done|]. split.
        -- intros s [= <-]. done.
        -- intros [|k] c c' s s' Hc0 Hc1 Hs0 Hs1; cbn in *.
           ++ injection Hc0 as <-. injection Hs0 as <-.
              destruct rest as [|s2 rest']; [done|]. injection Hs1 as ->.
              specialize (Hhead s' eq_refl). destruct new as [|c2 new']; [done|].
              cbn in Hhead, Hc1. injection Hhead as Hhead. injection Hc1 as <-.
              rewrite Hhead. apply u16_mul_l.
           ++ by apply (Hrec k c c' s s').
      * apply u16_range.
      * lia.
      * done.
      * intros s Hs. destruct rest as [|s2 rest']; [done|]. injection Hs as <-.
        apply (Hsorted 0%nat size s2); done.
      * intros k s s' Hs0 Hs1. apply (Hsorted (S k)); done.
Qed.

Lemma expand_sizes_bounds i size_data :
  0 <= i → i + size_ size_data <= 255 →
  Forall (λ s, i + 1 <= s <= i + size_ size_data) (expand_sizes i size_data).
Proof.
  unfold size_. revert i.
  induction size_data as [|n rest IH]; intros i Hi Hle; cbn [expand_sizes]; [done|].
  cbn [length] in *. apply Forall_app. split.
  - apply Forall_replicate. rewrite u8_small by lia. lia.
  - eapply Forall_impl; [apply IH; lia|]. cbn. intros s Hs. lia.
Qed.

Lemma expand_sizes_sorted i size_data (k : nat) s s' :
  0 <= i → i + size_ size_data <= 255 →
  expand_sizes i size_data !! k = Some s →
  expand_sizes i size_data !! S k = Some s' →
  s <= s'.
Proof.
  unfold size_. revert i k.
  induction size_data as [|n rest IH]; intros i k Hi Hle; cbn [expand_sizes]; [done|].
  cbn [length] in *.
  pose proof (expand_sizes_bounds (i + 1) rest ltac:(lia) ltac:(unfold size_; lia))
    as Hrest.
  rewrite !lookup_app_Some, !length_replicate.
  intros [[Hs Hk]%lookup_replicate|[Hk Hs]] [[Hs' Hk']%lookup_replicate|[Hk' Hs']].
  - lia.
  - subst s. rewrite u8_small by lia.
    rewrite Forall_lookup in Hrest. apply Hrest in Hs'. lia.
  - lia.
  - replace (S k - Z.to_nat (val n))%nat with (S (k - Z.to_nat (val n))) in Hs' by lia.
    apply (IH (i + 1) (k - Z.to_nat (val n))%nat); (done || lia).
Qed.

Lemma make_code_table_recurrence sizes code_table :
  make_code_table sizes = Returned code_table →
  Forall (λ s, 0 <= s <= 255) sizes →
  (∀ (k : nat) s s', sizes !! k = Some s → sizes !! S k = Some s' → s <= s') →
  head code_table = Some 0
  ∧ ∀ (k : nat) c c' s s',
      code_table !! k = Some c → code_table !! S k = Some c' →
      sizes !! k = Some s → sizes !! S k = Some s' →
      c' = u16 ((c + 1) * 2 ^ (s' - s)).
Proof.
  unfold make_code_table. intros (first & Hfirst & Hloop)%bind_Returned Hs Hsorted.
  destruct sizes as [|size rest]; [done|]. injection Hfirst as <-.
  apply code_table_loop_recurrence in Hloop as (new & -> & Hhead & Hrec).
  - split; [|done]. cbn [app]. rewrite (Hhead size eq_refl). done.
  - done.
  - by apply Forall_cons_1 in Hs as [[? _] _].
  - eapply Forall_impl; [done|]. cbn. lia.
  - intros s [= <-]. done.
  - done.
Qed.

Lemma from_size_data_codes size_data data_area table (k : nat) c :
  from_size_data size_data data_area = Returned table →
  codes table !! k = Some c →
  ∃ code_table,
    make_code_table (expand_sizes 0 size_data) = Returned code_table
    ∧ expand_sizes 0 size_data !! k = Some (HuffmanCode.length c)
    ∧ code_table !! k = Some (HuffmanCode.code c)
    ∧ data_area !! k = Some (HuffmanCode.value c).
Proof.
  intros (code_table & Hct & _ & Hlen & Hk)%from_size_data_Returned Hc.
  exists code_table. split; [done|].
  destruct (lookup_lt_is_Some_2 data_area k) as [d Hd];
    [rewrite <- Hlen; by eapply lookup_lt_Some|].
  destruct (Hk k d Hd) as (len & c0 & Hl & Hc0 & Hc').
  rewrite Hc in Hc'. injection Hc' as ->. done.
Qed.

(** X5: the codes of a table that [from_size_data] returns follow the
    canonical recurrence, on 16 bits: the first code is 0 and each code is
    the one before, plus one, shifted left by the growth of the length and
    truncated to an [unsigned short]. *)
Theorem from_size_data_canonical_codes (size_data data_area : list byte)
    (table : HuffmanTable) :
  List.length size_data = 16%nat →
  from_size_data size_data data_area = Returned table →
  (∀ c, head (codes table) = Some c → HuffmanCode.code c = 0)
  ∧ ∀ (k : nat) c c',
      codes table !! k = Some c → codes table !! S k = Some c' →
      HuffmanCode.code c'
      = u16 ((HuffmanCode.code c + 1)
             * 2 ^ (HuffmanCode.length c' - HuffmanCode.length c)).
Proof.
  intros Hlen Htable.
  assert (Hrec : ∀ code_table,
             make_code_table (expand_sizes 0 size_data) = Returned code_table →
             head code_table = Some 0
             ∧ ∀ (k : nat) c c' s s',
                 code_table !! k = Some c → code_table !! S k = Some c' →
                 expand_sizes 0 size_data !! k = Some s →
                 expand_sizes 0 size_data !! S k = Some s' →
                 c' = u16 ((c + 1) * 2 ^ (s' - s))).
  { intros code_table Hct. apply make_code_table_recurrence; [done| |].
    - apply expand_sizes_range.
    - intros k s s'. apply expand_sizes_sorted; [done|]. unfold size_. lia. }
  split.
  - intros c Hc. rewrite head_lookup in Hc.
    destruct (from_size_data_codes _ _ _ _ _ Htable Hc) as (ct & Hct & _ & Hc0 & _).
    destruct (Hrec ct Hct) as [Hhead _]. rewrite head_lookup in Hhead. congruence.
  - intros k c c' Hc Hc'.
    destruct (from_size_data_codes _ _ _ _ _ Htable Hc) as (ct & Hct & Hl & Hc0 & _).
    destruct (from_size_data_codes _ _ _ _ _ Htable Hc') as (ct' & Hct' & Hl' & Hc1 & _).
    rewrite Hct in Hct'. injection Hct' as <-.
    destruct (Hrec ct Hct) as [_ Hstep]. by apply (Hstep k).
Qed.

Lemma from_size_data_canonical_codes_witness :
  ∃ table,
    from_size_data (counts [x01; x01]) [x01; x02] = Returned table
    ∧ ∀ (k : nat) c c',
        codes table !! k = Some c → codes table !! S k = Some c' →
        HuffmanCode.code c'
        = u16 ((HuffmanCode.code c + 1)
               * 2 ^ (HuffmanCode.length c' - HuffmanCode.length c)).
Proof.
  eexists. split; [by vm_compute|].
  apply (from_size_data_canonical_codes (counts [x01; x01]) [x01; x02]);
    by vm_compute.
Defined.

(** X6: the codes of a table that [from_size_data] returns are sorted by
    code length, and every length lies between 1 and 16. *)
Theorem from_size_data_sorted_by_length (size_data data_area : list byte)
    (table : HuffmanTable) :
  List.length size_data = 16%nat →
  from_size_data size_data data_area = Returned table →
  (∀ (k : nat) c, codes table !! k = Some c → 1 <= HuffmanCode.length c <= 16)
  ∧ ∀ (k : nat) c c',
      codes table !! k = Some c → codes table !! S k = Some c' →
      HuffmanCode.length c <= HuffmanCode.length c'.
Proof.
  intros Hlen Htable. split.
  - intros k c Hc.
    destruct (from_size_data_codes _ _ _ _ _ Htable Hc) as (_ & _ & Hl & _).
    pose proof (expand_sizes_bounds 0 size_data) as Hb.
    rewrite Forall_lookup in Hb. apply Hb in Hl; unfold size_ in *; lia.
  - intros k c c' Hc Hc'.
    destruct (from_size_data_codes _ _ _ _ _ Htable Hc) as (_ & _ & Hl & _).
    destruct (from_size_data_codes _ _ _ _ _ Htable Hc') as (_ & _ & Hl' & _).
    apply (expand_sizes_sorted 0 size_data k); (done || unfold size_; lia).
Qed.

Lemma from_size_data_sorted_by_length_witness :
  ∃ table,
    from_size_data (counts [x01; x00; x02]) [x0a; x0b; x0c] = Returned table
    ∧ (∀ (k : nat) c, codes table !! k = Some c → 1 <= HuffmanCode.length c <= 16)
    ∧ ∀ (k : nat) c c',
        codes table !! k = Some c → codes table !! S k = Some c' →
        HuffmanCode.length c <= HuffmanCode.length c'.
Proof.
  eexists. split; [by vm_compute|].
  apply (from_size_data_sorted_by_length (counts [x01; x00; x02]) [x0a; x0b; x0c]);
    by vm_compute.
Defined.

Lemma code_table_loop_complete sizes code current_size code_table l :
  code_table_loop sizes code current_size code_table = Returned l →
  0 <= current_size <= 16 →
  Forall (λ s, 0 <= s <= 16) sizes →
  ∃ new, l = code_table ++ new
    ∧ (List.length new = List.length sizes ∨ last new = Some 0xffff).
Proof.
  intros Hl Hcur Hs. revert code current_size code_table Hl Hcur.
  induction Hs as [|size rest Hsize Hrest IH]; intros code cur acc Hl Hcur.
  - cbn in Hl. injection Hl as <-. exists []. rewrite app_nil_r. split; [done|by left].
  - cbn -[shift_while] in Hl.
    destruct (shift_while_Returned 256 size code cur) as [code' Hw]; [lia..|].
    rewrite Hw in Hl. cbn [mbind outcome_bind] in Hl.
    rewrite (bool_decide_false (Z.max size cur > 16)) in Hl by lia. cbn [orb] in Hl.
    case_bool_decide as Hff.
    + injection Hl as <-. exists [code']. split; [done|]. right. by subst code'.
    + apply IH in Hl as (new & -> & Hnew); [|lia].
      exists (code' :: new). rewrite <- app_assoc. split; [done|].
      destruct Hnew as [Hnew|Hnew]; [left; cbn; lia|right].
      destruct new as [|c new']; [done|]. done.
Qed.

(** X7: on lengths between 0 and 16, the code table of [make_code_table]
    is not empty and has one code per length, unless the walk stopped at
    the sentinel: a shorter table ends with the code 0xffff. *)
Theorem make_code_table_complete_or_sentinel (sizes code_table : list Z) :
  Forall (λ s, 0 <= s <= 16) sizes →
  make_code_table sizes = Returned code_table →
  (0 < List.length code_table <= List.length sizes)%nat
  ∧ (List.length code_table = List.length sizes ∨ last code_table = Some 0xffff).
Proof.
  intros Hs Hct. split.
  - destruct (make_code_table_cases sizes) as [[_ E]|(ct & E & Hlen)].
    + eapply Forall_impl; [done|]. cbn. lia.
    + congruence.
    + rewrite Hct in E. by injection E as <-.
  - unfold make_code_table in Hct.
    apply bind_Returned in Hct as (first & Hfirst & Hloop).
    destruct sizes as [|size rest]; [done|]. injection Hfirst as <-.
    apply code_table_loop_complete in Hloop as (new & -> & Hnew); [done| |done].
    by apply Forall_cons_1 in Hs as [? _].
Qed.

Lemma make_code_table_complete_or_sentinel_witness :
  ∃ code_table,
    make_code_table (expand_sizes 0 (replicate 15 x01 ++ [x03])) = Returned code_table
    ∧ (0 < List.length code_table
       <= List.length (expand_sizes 0 (replicate 15 x01 ++ [x03])))%nat
    ∧ (List.length code_table
       = List.length (expand_sizes 0 (replicate 15 x01 ++ [x03]))
       ∨ last code_table = Some 0xffff).
Proof.
  eexists. split; [by vm_compute|].
  apply (make_code_table_complete_or_sentinel
           (expand_sizes 0 (replicate 15 x01 ++ [x03]))).
  - vm_compute. repeat constructor; discriminate.
  - by vm_compute.
Defined.

Lemma make_code_table_stops_at_sentinel_witness :
  ∃ code_table,
    make_code_table (expand_sizes 0 (replicate 15 x01 ++ [x03])) = Returned code_table
    ∧ code_table !! 15%nat ≠ Some 0xffff.
Proof.
  eexists. split; [by vm_compute|].
  apply (make_code_table_stops_at_sentinel
           (expand_sizes 0 (replicate 15 x01 ++ [x03]))).
  - by vm_compute.
  - vm_compute. lia.
Defined.

(** ** The segment decoders *)

(** X11: a quantization table that [parse_quantization_table] returns has
    64 coefficients, each between 0 and 255: the entries are read as single
    bytes whatever the precision nibble says. *)
Theorem parse_quantization_table_coefficients (self self' : JPEGParser)
    (table : QuantizationTable) :
  parse_quantization_table self = Returned (table, self') →
  List.length (data table) = 64%nat
  ∧ Forall (λ v, 0 <= v <= 255) (data table).
Proof.
  unfold parse_quantization_table. cbn zeta.
  intros (c & _ & (table_data & Hr & [= <- _])%bind_Returned)%bind_Returned.
  cbn [data]. split.
  - apply range_length in Hr. unfold size_ in Hr. rewrite length_fmap. lia.
  - apply Forall_fmap, Forall_true. intros x. cbn.
    pose proof (val_range x). lia.
Qed.

Lemma parse_quantization_table_coefficients_witness :
  ∃ table self',
    parse_quantization_table (JPEGParser.Build two_tables_stream 6)
    = Returned (table, self')
    ∧ List.length (data table) = 64%nat
    ∧ Forall (λ v, 0 <= v <= 255) (data table).
Proof.
  do 2 eexists. split; [by vm_compute|].
  apply (parse_quantization_table_coefficients
           (JPEGParser.Build two_tables_stream 6)
           (JPEGParser.Build two_tables_stream 71)).
  by vm_compute.
Defined.

Lemma parse_huffman_table_Returned self table self' :
  cursor_ok self →
  parse_huffman_table self = Returned (table, self') →
  ∃ size_data,
    range (raw_data self) (index self) 16 = Returned size_data
    ∧ self' = JPEGParser.Build (raw_data self)
                (index self + 16 + foldl Z.add 0 (val <$> size_data))
    ∧ index self + 16 + foldl Z.add 0 (val <$> size_data) <= size_ (raw_data self)
    ∧ size_ (codes table) = foldl Z.add 0 (val <$> size_data)
    ∧ ∀ (k : nat) c, codes table !! k = Some c →
        raw_data self !! (Z.to_nat (index self + 16) + k)%nat
        = Some (HuffmanCode.value c)
        ∧ expand_sizes 0 size_data !! k = Some (HuffmanCode.length c).
Proof.
  intros Hok. rewrite parse_huffman_table_spec by done.
  destruct Hok as [Hi Hsz].
  case_bool_decide as Hin; [|done]. cbn zeta.
  set (size_data := take 16 (drop (Z.to_nat (index self)) (raw_data self))).
  pose proof (codes_count_range size_data) as Hcount.
  set (n := foldl Z.add 0 (val <$> size_data)) in *.
  case_bool_decide as Hin'; [|done].
  intros (t & Ht & [= <- <-])%bind_Returned.
  exists size_data. split; [|split; [done|split; [done|split]]].
  - apply range_Returned. split; [lia|done].
  - apply from_size_data_Returned in Ht as (_ & _ & _ & Hlen & _).
    unfold size_ in *. rewrite Hlen, length_take, length_drop. lia.
  - intros k c Hc.
    destruct (from_size_data_codes _ _ _ _ _ Ht Hc) as (_ & _ & Hl & _ & Hv).
    split; [|done].
    apply lookup_take_Some in Hv as [Hv _]. by rewrite lookup_drop in Hv.
Qed.

(** X9: a Huffman table that [parse_huffman_table] returns has exactly as
    many codes as the 16 counts at the cursor add up to; the value of the
    code number [k] is the byte [k] places after the counts, its length is
    the one the counts give to the place [k], and the cursor is left after
    the last symbol. *)
Theorem parse_huffman_table_symbols (self self' : JPEGParser)
    (table : HuffmanTable) :
  cursor_ok self →
  parse_huffman_table self = Returned (table, self') →
  ∃ size_data,
    range (raw_data self) (index self) 16 = Returned size_data
    ∧ self' = JPEGParser.Build (raw_data self)
                (index self + 16 + foldl Z.add 0 (val <$> size_data))
    ∧ size_ (codes table) = foldl Z.add 0 (val <$> size_data)
    ∧ ∀ (k : nat) c, codes table !! k = Some c →
        raw_data self !! (Z.to_nat (index self + 16) + k)%nat
        = Some (HuffmanCode.value c)
        ∧ expand_sizes 0 size_data !! k = Some (HuffmanCode.length c).
Proof.
  intros Hok H.
  destruct (parse_huffman_table_Returned _ _ _ Hok H)
    as (size_data & Hr & Hself & _ & Hsize & Hk).
  exists size_data. done.
Qed.

Lemma parse_huffman_table_symbols_witness :
  ∃ table self' size_data,
    parse_huffman_table (JPEGParser.Build (counts [x01; x01] ++ [x0a; x0b]) 0)
    = Returned (table, self')
    ∧ range (counts [x01; x01] ++ [x0a; x0b]) 0 16 = Returned size_data
    ∧ self' = JPEGParser.Build (counts [x01; x01] ++ [x0a; x0b])
                (0 + 16 + foldl Z.add 0 (val <$> size_data))
    ∧ size_ (codes table) = foldl Z.add 0 (val <$> size_data).
Proof.
  destruct (parse_huffman_table_symbols
              (JPEGParser.Build (counts [x01; x01] ++ [x0a; x0b]) 0)
              (JPEGParser.Build (counts [x01; x01] ++ [x0a; x0b]) 18)
              (HuffmanTable.Build
                 [HuffmanCode.Build 1 0 x0a; HuffmanCode.Build 2 2 x0b]))
    as (size_data & Hr & Hself & Hsize & _).
  - split; [split|]; by vm_compute.
  - by vm_compute.
  - do 2 eexists. exists size_data. split; [by vm_compute|].
    split; [exact Hr|]. split; [exact Hself|exact Hsize].
Defined.

(** X10: a Huffman table whose 16 counts are all zero cannot be decoded:
    [parse_huffman_table] reads the first element of the empty list of
    lengths and is out of range, whatever follows in the buffer. *)
Theorem parse_huffman_table_without_codes (self : JPEGParser) (size_data : list byte) :
  cursor_ok self →
  range (raw_data self) (index self) 16 = Returned size_data →
  foldl Z.add 0 (val <$> size_data) = 0 →
  parse_huffman_table self = OutOfRange.
Proof.
  intros Hok [Hr ->]%range_Returned Hzero.
  rewrite parse_huffman_table_spec by done. destruct Hok as [Hi Hsz].
  change (Z.to_nat 16) with 16%nat in Hzero.
  rewrite bool_decide_true by lia. cbn zeta. rewrite Hzero.
  rewrite bool_decide_true by lia.
  unfold from_size_data.
  pose proof (expand_sizes_length 0
                (take 16 (drop (Z.to_nat (index self)) (raw_data self)))) as Hlen.
  rewrite Hzero in Hlen. unfold size_ in Hlen.
  destruct (expand_sizes 0 _); [done|cbn in Hlen; lia].
Qed.

Lemma parse_huffman_table_without_codes_witness :
  parse_huffman_table (JPEGParser.Build (replicate 16 x00 ++ [x0a; x0b]) 0)
  = OutOfRange.
Proof.
  apply (parse_huffman_table_without_codes
           (JPEGParser.Build (replicate 16 x00 ++ [x0a; x0b]) 0)
           (replicate 16 x00)).
  - split; [split|]; by vm_compute.
  - by vm_compute.
  - by vm_compute.
Defined.

(** X21: consecutive thumbnail pixels of [parse_jfif_data] overlap: the
    loop moves one byte, not three, from one pixel to the next, so the red
    and green bytes of a pixel are the green and blue bytes of the pixel
    before it. *)
Theorem parse_jfif_data_pixels_overlap (self self' : JPEGParser) (jfif : JFIFData) :
  cursor_ok self →
  parse_jfif_data self = Returned (jfif, self') →
  ∀ (k : nat) p q,
    thumbnail_data jfif !! k = Some p → thumbnail_data jfif !! S k = Some q →
    r q = g p ∧ g q = b p.
Proof.
  intros Hok H k p q Hp Hq.
  apply parse_jfif_data_Returned in H as (_ & _ & _ & _ & _ & _ & _ & Hloop); [|done].
  apply thumbnail_loop_Returned in Hloop as (px & Hpx & _ & Hrgb).
  cbn in Hpx. subst px.
  destruct (Hrgb k p Hp) as (_ & Hg & Hb). destruct (Hrgb (S k) q Hq) as (Hr' & Hg' & _).
  replace (0 + Z.of_nat (S k)) with (0 + Z.of_nat k + 1) in Hr', Hg' by lia.
  replace (0 + Z.of_nat k + 1 + 1) with (0 + Z.of_nat k + 2) in Hg' by lia.
  split; congruence.
Qed.

Lemma parse_jfif_data_pixels_overlap_witness :
  ∃ jfif self',
    parse_jfif_data (JPEGParser.Build (app0_stream x01 x01 x02) 6)
    = Returned (jfif, self')
    ∧ ∀ (k : nat) p q,
        thumbnail_data jfif !! k = Some p → thumbnail_data jfif !! S k = Some q →
        r q = g p ∧ g q = b p.
Proof.
  do 2 eexists. split; [by vm_compute|].
  apply (parse_jfif_data_pixels_overlap
           (JPEGParser.Build (app0_stream x01 x01 x02) 6)
           (JPEGParser.Build (app0_stream x01 x01 x02) 20)).
  - split; [split|]; by vm_compute.
  - by vm_compute.
Defined.

Lemma thumbnail_loop_needs raw n acc l :
  thumbnail_loop raw n 0 acc = Returned l →
  n = 0%nat ∨ Z.of_nat n + 2 <= size_ raw.
Proof.
  intros (px & _ & Hlen & Hrgb)%thumbnail_loop_Returned.
  destruct n as [|n]; [by left|right].
  destruct (lookup_lt_is_Some_2 px n) as [rgb Hpx]; [lia|].
  destruct (Hrgb n rgb Hpx) as (_ & _ & Hb).
  apply at_Returned in Hb as [_ Hb%lookup_lt_Some]. unfold size_. lia.
Qed.

(** X22: with the 14 header bytes in the buffer, [parse_jfif_data] returns
    exactly when the thumbnail is empty or the whole buffer has at least
    width * height + 2 bytes; otherwise it reads out of range.  Where the
    thumbnail bytes would lie in the segment plays no part. *)
Theorem parse_jfif_data_returns_iff (self : JPEGParser) (w h : byte) :
  cursor_ok self →
  at_ (raw_data self) (index self + 12) = Returned w →
  at_ (raw_data self) (index self + 13) = Returned h →
  ((∃ jfif self', parse_jfif_data self = Returned (jfif, self'))
   ↔ val w * val h = 0 ∨ val w * val h + 2 <= size_ (raw_data self))
  ∧ (val w * val h ≠ 0 → size_ (raw_data self) < val w * val h + 2 →
     parse_jfif_data self = OutOfRange).
Proof.
  intros Hok Hw Hh.
  assert (Hiff : (∃ jfif self', parse_jfif_data self = Returned (jfif, self'))
                 ↔ val w * val h = 0 ∨ val w * val h + 2 <= size_ (raw_data self)).
  { split.
    - intros (jfif & self' & H).
      apply parse_jfif_data_Returned in H
        as (_ & _ & _ & _ & _ & Hw' & Hh' & Hloop); [|done].
      rewrite Hw in Hw'. rewrite Hh in Hh'. injection Hw' as Hw'. injection Hh' as Hh'.
      rewrite <- Hw', <- Hh' in Hloop. apply thumbnail_loop_needs in Hloop.
      pose proof (val_range w). pose proof (val_range h).
      destruct Hloop; [left|right]; lia.
    - intros Hn. destruct (parse_jfif_data_in_range self w h) as [jfif Hj]; eauto. }
  split; [done|]. intros Hne Hshort.
  destruct (parse_jfif_data_outcome self) as [[[jfif self'] H]|H]; [|done].
  destruct (proj1 Hiff) as [?|?]; [eauto|lia..].
Qed.

Lemma parse_jfif_data_returns_iff_witness :
  parse_jfif_data (JPEGParser.Build (app0_stream x01 x05 x05) 6) = OutOfRange.
Proof.
  refine (proj2 (parse_jfif_data_returns_iff
                   (JPEGParser.Build (app0_stream x01 x05 x05) 6) x05 x05 _ _ _) _ _).
  - split; [split|]; by vm_compute.
  - reflexivity.
  - reflexivity.
  - by vm_compute.
  - by vm_compute.
Defined.

(** ** The loops over the tables of a segment *)

Lemma dqt_loop_exit fuel segment_end enc self enc' self' :
  cursor_ok self →
  dqt_loop fuel segment_end enc self = Returned (enc', self') →
  ∃ n : nat,
    self' = JPEGParser.Build (raw_data self) (index self + 65 * Z.of_nat n)
    ∧ segment_end <= index self'
    ∧ ((0 < n)%nat → index self' - 65 < segment_end)
    ∧ cursor_ok self'.
Proof.
  revert enc self. induction fuel as [|fuel IH]; intros enc self Hok; [done|].
  cbn [dqt_loop]. case_bool_decide as Hlt.
  - rewrite parse_quantization_table_spec by done.
    case_bool_decide as Hin; [|done]. cbn [mbind outcome_bind].
    intros (tables & _ & H)%bind_Returned.
    apply IH in H as (n & -> & Hexit & Hover & Hok'); cbn [raw_data index] in *.
    + exists (S n). split; [f_equal; lia|]. split; [done|]. split; [|done].
      intros _. destruct n; [cbn [index]; lia|]. apply Hover. lia.
    + destruct Hok as [? ?]. split; cbn [raw_data index]; [lia|done].
  - intros [= <- <-]. exists 0%nat. split; [destruct self; cbn; f_equal; lia|].
    split; [lia|]. split; [lia|done].
Qed.

(** X12: the loop of a DQT segment reads whole tables of 65 bytes until
    the cursor reaches or passes [segment_end]: when it returns the cursor
    has moved by a multiple of 65, is not before the end of the segment,
    and is less than 65 bytes past it if a table was read. *)
Theorem dqt_loop_reads_whole_tables (fuel : nat) (segment_end : Z)
    (enc enc' : JPEGEncoded) (self self' : JPEGParser) :
  cursor_ok self →
  dqt_loop fuel segment_end enc self = Returned (enc', self') →
  ∃ n : nat,
    index self' = index self + 65 * Z.of_nat n
    ∧ raw_data self' = raw_data self
    ∧ segment_end <= index self'
    ∧ ((0 < n)%nat → index self' < segment_end + 65)
    ∧ index self' <= size_ (raw_data self).
Proof.
  intros Hok H.
  destruct (dqt_loop_exit _ _ _ _ _ _ Hok H) as (n & -> & Hexit & Hover & Hok').
  exists n. cbn [raw_data index] in *. repeat split; [done| |apply Hok'].
  intros Hn. specialize (Hover Hn). lia.
Qed.

Lemma dqt_loop_reads_whole_tables_witness :
  ∃ enc' self' (n : nat),
    dqt_loop 3 100 parse_init (JPEGParser.Build two_tables_stream 6)
    = Returned (enc', self')
    ∧ index self' = 6 + 65 * Z.of_nat n
    ∧ 100 <= index self'
    ∧ ((0 < n)%nat → index self' < 100 + 65).
Proof.
  assert (H : ∃ result,
             dqt_loop 3 100 parse_init (JPEGParser.Build two_tables_stream 6)
             = Returned result) by (eexists; by vm_compute).
  destruct H as [[enc' self'] H].
  destruct (dqt_loop_reads_whole_tables 3 100 parse_init enc'
              (JPEGParser.Build two_tables_stream 6) self')
    as (n & Hn & _ & Hexit & Hover & _).
  - split; [split|]; by vm_compute.
  - exact H.
  - exists enc', self', n. split; [exact H|]. split; [exact Hn|].
    split; [exact Hexit|exact Hover].
Defined.

(** X13: once [q_tables] is full, a further table of a DQT segment is
    stored past the end of the array: with as many tables counted as the
    array has slots, the loop is out of range whenever it reads one more
    table. *)
Theorem dqt_loop_table_past_the_last_slot (fuel : nat) (segment_end : Z)
    (enc : JPEGEncoded) (self : JPEGParser) :
  cursor_ok self →
  size_ (q_tables enc) <= q_tables_nbr enc →
  index self < segment_end →
  index self + 65 <= size_ (raw_data self) →
  dqt_loop (S fuel) segment_end enc self = OutOfRange.
Proof.
  intros Hok Hfull Hlt Hin. cbn [dqt_loop].
  rewrite bool_decide_true by done.
  rewrite parse_quantization_table_spec, bool_decide_true by done.
  cbn [mbind outcome_bind]. unfold store.
  rewrite bool_decide_false by lia. done.
Qed.

Lemma dqt_loop_table_past_the_last_slot_witness :
  dqt_loop 1 71
    (Build_JPEGEncoded None (replicate 4 (Build_QuantizationTable (replicate 64 0)))
       4 [] [])
    (JPEGParser.Build two_tables_stream 6)
  = OutOfRange.
Proof.
  apply (dqt_loop_table_past_the_last_slot 0 71
           (Build_JPEGEncoded None
              (replicate 4 (Build_QuantizationTable (replicate 64 0))) 4 [] [])
           (JPEGParser.Build two_tables_stream 6)).
  - split; [split|]; by vm_compute.
  - by vm_compute.
  - by vm_compute.
  - by vm_compute.
Defined.

Lemma table_dest_id_range c : 0 <= table_dest_id_of c <= 15.
Proof. destruct c; by vm_compute. Qed.

Lemma dht_loop_S_Returned fuel segment_end enc self enc' self' :
  cursor_ok self →
  index self < segment_end →
  dht_loop (S fuel) segment_end enc self = Returned (enc', self') →
  ∃ c table self1 enc1,
    at_ (raw_data self) (index self) = Returned c
    ∧ parse_huffman_table (JPEGParser.Build (raw_data self) (index self + 1))
      = Returned (table, self1)
    ∧ raw_data self1 = raw_data self
    ∧ index self + 17 <= index self1
    ∧ cursor_ok self1
    ∧ dht_loop fuel segment_end enc1 self1 = Returned (enc', self')
    ∧ metadata enc1 = metadata enc
    ∧ q_tables enc1 = q_tables enc
    ∧ q_tables_nbr enc1 = q_tables_nbr enc
    ∧ ((table_class_of c = 0
        ∧ table_dest_id_of c < size_ (huffman_dc_tables enc)
        ∧ huffman_dc_tables enc1
          = <[Z.to_nat (table_dest_id_of c) := table]> (huffman_dc_tables enc)
        ∧ huffman_ac_tables enc1 = huffman_ac_tables enc)
       ∨ (table_class_of c ≠ 0
          ∧ table_dest_id_of c < size_ (huffman_ac_tables enc)
          ∧ huffman_ac_tables enc1
            = <[Z.to_nat (table_dest_id_of c) := table]> (huffman_ac_tables enc)
          ∧ huffman_dc_tables enc1 = huffman_dc_tables enc)).
Proof.
  intros Hok Hlt. cbn [dht_loop]. rewrite bool_decide_true by done.
  intros (c & Hc & H)%bind_Returned.
  apply bind_Returned in H as ([table self1] & Hpht & H).
  apply bind_Returned in H as (enc1 & Henc1 & H).
  destruct Hok as [Hi Hsz]. assert (2 ^ 63 < 2 ^ 64) by done.
  apply at_Returned in Hc as Hc'. destruct Hc' as [_ Hc'%lookup_lt_Some].
  unfold advance in Hpht. rewrite u64_small in Hpht by lia.
  assert (Hok1 : cursor_ok (JPEGParser.Build (raw_data self) (index self + 1)))
    by (split; cbn [raw_data index]; [unfold size_; lia|done]).
  destruct (parse_huffman_table_Returned _ _ _ Hok1 Hpht)
    as (size_data & Hr & Hself1 & Hin & _).
  apply range_Returned in Hr as [Hr _]. cbn [raw_data index] in Hr, Hself1, Hin.
  pose proof (codes_count_range size_data) as Hcount.
  exists c, table, self1, enc1. split; [done|]. split; [done|].
  split; [by subst self1|]. split; [subst self1; cbn [index]; lia|].
  split; [subst self1; split; cbn [raw_data index] in *; [lia|done]|].
  split; [done|].
  fold (table_class_of c) in Henc1. fold (table_dest_id_of c) in Henc1.
  case_bool_decide as Hclass.
  - apply bind_Returned in Henc1 as (tables & [Hid ->]%store_Returned & [= <-]).
    cbn. repeat split; try done. left. repeat split; (done || lia).
  - apply bind_Returned in Henc1 as (tables & [Hid ->]%store_Returned & [= <-]).
    cbn. repeat split; try done. right. repeat split; (done || lia).
Qed.

Lemma dht_loop_Returned fuel segment_end enc self enc' self' :
  cursor_ok self →
  List.length (huffman_ac_tables enc) = 32%nat →
  List.length (huffman_dc_tables enc) = 32%nat →
  dht_loop fuel segment_end enc self = Returned (enc', self') →
  (metadata enc' = metadata enc ∧ q_tables enc' = q_tables enc
   ∧ q_tables_nbr enc' = q_tables_nbr enc)
  ∧ (List.length (huffman_ac_tables enc') = 32%nat
     ∧ List.length (huffman_dc_tables enc') = 32%nat)
  ∧ (raw_data self' = raw_data self ∧ index self <= index self'
     ∧ segment_end <= index self' ∧ cursor_ok self')
  ∧ (∀ (j : nat) table, huffman_dc_tables enc' !! j = Some table →
       huffman_dc_tables enc !! j = Some table
       ∨ ∃ i c self1,
           index self <= i < index self'
           ∧ at_ (raw_data self) i = Returned c
           ∧ table_class_of c = 0 ∧ Z.to_nat (table_dest_id_of c) = j
           ∧ parse_huffman_table (JPEGParser.Build (raw_data self) (i + 1))
             = Returned (table, self1))
  ∧ (∀ (j : nat) table, huffman_ac_tables enc' !! j = Some table →
       huffman_ac_tables enc !! j = Some table
       ∨ ∃ i c self1,
           index self <= i < index self'
           ∧ at_ (raw_data self) i = Returned c
           ∧ table_class_of c ≠ 0 ∧ Z.to_nat (table_dest_id_of c) = j
           ∧ parse_huffman_table (JPEGParser.Build (raw_data self) (i + 1))
             = Returned (table, self1)).
Proof.
  revert enc self.
  induction fuel as [|fuel IH]; intros enc self Hok Hac Hdc H; [done|].
  destruct (decide (index self < segment_end)) as [Hlt|Hge].
  - apply dht_loop_S_Returned in H
      as (c & table & self1 & enc1 & Hc & Hpht & Hraw & Hadv & Hok1 & H
          & Hm & Hq & Hn & Hstore); [|done..].
    pose proof (table_dest_id_range c) as Hid.
    assert (Hac1 : List.length (huffman_ac_tables enc1) = 32%nat).
    { destruct Hstore as [(_ & _ & _ & ->)|(_ & _ & -> & _)];
        [done|by rewrite length_insert]. }
    assert (Hdc1 : List.length (huffman_dc_tables enc1) = 32%nat).
    { destruct Hstore as [(_ & _ & -> & _)|(_ & _ & _ & ->)];
        [by rewrite length_insert|done]. }
    destruct (IH enc1 self1 Hok1 Hac1 Hdc1 H)
      as ((Hm' & Hq' & Hn') & Hlens & (Hraw' & Hle & Hexit & Hok') & Hdcs & Hacs).
    rewrite Hraw in *.
    split; [repeat split; congruence|]. split; [done|].
    split; [split; [done|split; [lia|split; done]]|]. split.
    + intros j t Ht. destruct (Hdcs j t Ht) as [Hold|(i & c' & s1 & Hi & ?)].
      * destruct Hstore as [(Hclass & _ & Hdc' & _)|(_ & _ & _ & Hdc')];
          rewrite Hdc' in Hold; [|by left].
        destruct (decide (Z.to_nat (table_dest_id_of c) = j)) as [<-|Hne].
        -- rewrite list_lookup_insert_eq in Hold by lia. injection Hold as <-.
           right. exists (index self), c, self1. repeat split; (done || lia).
        -- rewrite list_lookup_insert_ne in Hold by done. by left.
      * right. exists i, c', s1. split; [lia|done].
    + intros j t Ht. destruct (Hacs j t Ht) as [Hold|(i & c' & s1 & Hi & ?)].
      * destruct Hstore as [(_ & _ & _ & Hac')|(Hclass & _ & Hac' & _)];
          rewrite Hac' in Hold; [by left|].
        destruct (decide (Z.to_nat (table_dest_id_of c) = j)) as [<-|Hne].
        -- rewrite list_lookup_insert_eq in Hold by lia. injection Hold as <-.
           right. exists (index self), c, self1. repeat split; (done || lia).
        -- rewrite list_lookup_insert_ne in Hold by done. by left.
      * right. exists i, c', s1. split; [lia|done].
  - cbn [dht_loop] in H. rewrite bool_decide_false in H by done.
    injection H as <- <-.
    split; [done|]. split; [done|]. split; [split; [done|split; [lia|split; [lia|done]]]|].
    split; intros j t Ht; by left.
Qed.

(** X14: the loop of a DHT segment writes Huffman tables only: when it
    returns, the JFIF header, the quantization tables and their count are
    as before, both Huffman arrays still have 32 slots, the slots 16 to 31
    of both are untouched (the destination is a nibble), the buffer is the
    same and the cursor is at or past the end of the segment. *)
Theorem dht_loop_frame (fuel : nat) (segment_end : Z)
    (enc enc' : JPEGEncoded) (self self' : JPEGParser) :
  cursor_ok self →
  List.length (huffman_ac_tables enc) = 32%nat →
  List.length (huffman_dc_tables enc) = 32%nat →
  dht_loop fuel segment_end enc self = Returned (enc', self') →
  metadata enc' = metadata enc
  ∧ q_tables enc' = q_tables enc
  ∧ q_tables_nbr enc' = q_tables_nbr enc
  ∧ List.length (huffman_ac_tables enc') = 32%nat
  ∧ List.length (huffman_dc_tables enc') = 32%nat
  ∧ (∀ j : nat, (16 <= j)%nat →
       huffman_ac_tables enc' !! j = huffman_ac_tables enc !! j
       ∧ huffman_dc_tables enc' !! j = huffman_dc_tables enc !! j)
  ∧ raw_data self' = raw_data self
  ∧ index self <= index self'
  ∧ segment_end <= index self'.
Proof.
  intros Hok Hac Hdc H.
  destruct (dht_loop_Returned _ _ _ _ _ _ Hok Hac Hdc H)
    as ((Hm & Hq & Hn) & (Hac' & Hdc') & (Hraw & Hle & Hexit & _) & Hdcs & Hacs).
  do 5 (split; [done|]). split; [|done].
  intros j Hj. split.
  - destruct (huffman_ac_tables enc' !! j) as [t|] eqn:Ht.
    + destruct (Hacs j t Ht) as [Hold|(i & c & s1 & _ & _ & _ & Hid & _)]; [done|].
      pose proof (table_dest_id_range c). lia.
    + apply lookup_ge_None in Ht. symmetry. apply lookup_ge_None. lia.
  - destruct (huffman_dc_tables enc' !! j) as [t|] eqn:Ht.
    + destruct (Hdcs j t Ht) as [Hold|(i & c & s1 & _ & _ & _ & Hid & _)]; [done|].
      pose proof (table_dest_id_range c). lia.
    + apply lookup_ge_None in Ht. symmetry. apply lookup_ge_None. lia.
Qed.

Lemma dht_loop_frame_witness :
  ∃ enc' self',
    dht_loop 3 44 parse_init (JPEGParser.Build two_huffman_tables_stream 6)
    = Returned (enc', self')
    ∧ metadata enc' = metadata parse_init
    ∧ q_tables enc' = q_tables parse_init
    ∧ q_tables_nbr enc' = q_tables_nbr parse_init
    ∧ List.length (huffman_ac_tables enc') = 32%nat
    ∧ List.length (huffman_dc_tables enc') = 32%nat
    ∧ 44 <= index self'.
Proof.
  assert (H : ∃ result,
             dht_loop 3 44 parse_init (JPEGParser.Build two_huffman_tables_stream 6)
             = Returned result) by (eexists; by vm_compute).
  destruct H as [[enc' self'] H].
  destruct (dht_loop_frame 3 44 parse_init enc'
              (JPEGParser.Build two_huffman_tables_stream 6) self')
    as (Hm & Hq & Hn & Hac & Hdc & _ & _ & _ & Hexit).
  - split; [split|]; by vm_compute.
  - reflexivity.
  - reflexivity.
  - exact H.
  - exists enc', self'. split; [exact H|]. repeat split; assumption.
Defined.

(** X15: Huffman tables are stored by class and destination: after the
    loop of a DHT segment, a table in the slot [j] of the DC array is the
    table that was there before, or a table decoded in this segment behind
    a byte whose class nibble is 0 and whose destination nibble is [j];
    in the AC array likewise, for a class nibble other than 0. *)
Theorem dht_loop_stores_by_class_and_destination (fuel : nat) (segment_end : Z)
    (enc enc' : JPEGEncoded) (self self' : JPEGParser) :
  cursor_ok self →
  List.length (huffman_ac_tables enc) = 32%nat →
  List.length (huffman_dc_tables enc) = 32%nat →
  dht_loop fuel segment_end enc self = Returned (enc', self') →
  (∀ (j : nat) table, huffman_dc_tables enc' !! j = Some table →
     huffman_dc_tables enc !! j = Some table
     ∨ ∃ i c self1,
         index self <= i < index self'
         ∧ at_ (raw_data self) i = Returned c
         ∧ table_class_of c = 0 ∧ Z.to_nat (table_dest_id_of c) = j
         ∧ parse_huffman_table (JPEGParser.Build (raw_data self) (i + 1))
           = Returned (table, self1))
  ∧ (∀ (j : nat) table, huffman_ac_tables enc' !! j = Some table →
       huffman_ac_tables enc !! j = Some table
       ∨ ∃ i c self1,
           index self <= i < index self'
           ∧ at_ (raw_data self) i = Returned c
           ∧ table_class_of c ≠ 0 ∧ Z.to_nat (table_dest_id_of c) = j
           ∧ parse_huffman_table (JPEGParser.Build (raw_data self) (i + 1))
             = Returned (table, self1)).
Proof.
  intros Hok Hac Hdc H.
  destruct (dht_loop_Returned _ _ _ _ _ _ Hok Hac Hdc H) as (_ & _ & _ & Hdcs & Hacs).
  done.
Qed.

Lemma dht_loop_stores_by_class_and_destination_witness :
  ∃ enc' self',
    dht_loop 3 44 parse_init (JPEGParser.Build two_huffman_tables_stream 6)
    = Returned (enc', self')
    ∧ ∀ (j : nat) table, huffman_dc_tables enc' !! j = Some table →
        huffman_dc_tables parse_init !! j = Some table
        ∨ ∃ i c self1,
            6 <= i < index self'
            ∧ at_ two_huffman_tables_stream i = Returned c
            ∧ table_class_of c = 0 ∧ Z.to_nat (table_dest_id_of c) = j
            ∧ parse_huffman_table (JPEGParser.Build two_huffman_tables_stream (i + 1))
              = Returned (table, self1).
Proof.
  assert (H : ∃ result,
             dht_loop 3 44 parse_init (JPEGParser.Build two_huffman_tables_stream 6)
             = Returned result) by (eexists; by vm_compute).
  destruct H as [[enc' self'] H].
  destruct (dht_loop_stores_by_class_and_destination 3 44 parse_init enc'
              (JPEGParser.Build two_huffman_tables_stream 6) self')
    as [Hdcs _].
  - split; [split|]; by vm_compute.
  - reflexivity.
  - reflexivity.
  - exact H.
  - exists enc', self'. split; [exact H|exact Hdcs].
Defined.

(** X16: a table of a DHT segment that ends the segment is stored in the
    slot its destination nibble names, in the DC array when its class
    nibble is 0 and in the AC array otherwise; the store is always in
    range and the other array is left as it was. *)
Theorem dht_loop_last_table (fuel : nat) (segment_end : Z) (enc : JPEGEncoded)
    (self self1 : JPEGParser) (c : byte) (table : HuffmanTable) :
  cursor_ok self →
  List.length (huffman_ac_tables enc) = 32%nat →
  List.length (huffman_dc_tables enc) = 32%nat →
  index self < segment_end →
  at_ (raw_data self) (index self) = Returned c →
  parse_huffman_table (JPEGParser.Build (raw_data self) (index self + 1))
  = Returned (table, self1) →
  segment_end <= index self1 →
  ∃ enc',
    dht_loop (S (S fuel)) segment_end enc self = Returned (enc', self1)
    ∧ (table_class_of c = 0 →
         huffman_dc_tables enc' !! Z.to_nat (table_dest_id_of c) = Some table
         ∧ huffman_ac_tables enc' = huffman_ac_tables enc)
    ∧ (table_class_of c ≠ 0 →
         huffman_ac_tables enc' !! Z.to_nat (table_dest_id_of c) = Some table
         ∧ huffman_dc_tables enc' = huffman_dc_tables enc).
Proof.
  intros [Hi Hsz] Hac Hdc Hlt Hc Hpht Hexit. assert (2 ^ 63 < 2 ^ 64) by done.
  apply at_Returned in Hc as Hc'. destruct Hc' as [_ Hc'%lookup_lt_Some].
  pose proof (table_dest_id_range c) as Hid.
  cbn [dht_loop]. rewrite (bool_decide_true (index self < segment_end)) by done.
  rewrite Hc. cbn [mbind outcome_bind]. unfold advance.
  rewrite u64_small by lia. rewrite Hpht. cbn [mbind outcome_bind].
  fold (table_class_of c). fold (table_dest_id_of c). unfold store, size_.
  rewrite Hac, Hdc.
  rewrite !(bool_decide_true (0 <= table_dest_id_of c < Z.of_nat 32)) by lia.
  rewrite (bool_decide_false (index self1 < segment_end)) by lia.
  destruct (decide (table_class_of c = 0)) as [Hclass|Hclass].
  - rewrite (bool_decide_true _ Hclass). cbn. eexists. split; [done|]. cbn. split.
    + intros _. split; [|done]. apply list_lookup_insert_eq. lia.
    + done.
  - rewrite (bool_decide_false _ Hclass). cbn. eexists. split; [done|]. cbn. split.
    + done.
    + intros _. split; [|done]. apply list_lookup_insert_eq. lia.
Qed.

Lemma dht_loop_last_table_witness :
  ∃ enc',
    dht_loop 2 44 parse_init (JPEGParser.Build two_huffman_tables_stream 25)
    = Returned (enc', JPEGParser.Build two_huffman_tables_stream 44)
    ∧ (table_class_of x11 ≠ 0 →
         huffman_ac_tables enc' !! Z.to_nat (table_dest_id_of x11)
         = Some (HuffmanTable.Build
                   [HuffmanCode.Build 1 0 x0c; HuffmanCode.Build 2 2 x0d])
         ∧ huffman_dc_tables enc' = huffman_dc_tables parse_init).
Proof.
  destruct (dht_loop_last_table 0 44 parse_init
              (JPEGParser.Build two_huffman_tables_stream 25)
              (JPEGParser.Build two_huffman_tables_stream 44) x11
              (HuffmanTable.Build
                 [HuffmanCode.Build 1 0 x0c; HuffmanCode.Build 2 2 x0d]))
    as (enc' & H & _ & Hac).
  - split; [split|]; by vm_compute.
  - reflexivity.
  - reflexivity.
  - by vm_compute.
  - by vm_compute.
  - by vm_compute.
  - by vm_compute.
  - exists enc'. split; [exact H|exact Hac].
Defined.

(** ** The scanning loop, marker by marker *)

Lemma segment_length_value hi lo :
  u16 (Z.shiftl (val hi) 8 + val lo) = val hi * 256 + val lo
  ∧ 0 <= val hi * 256 + val lo < 2 ^ 16.
Proof.
  pose proof (val_range hi). pose proof (val_range lo).
  rewrite Z.shiftl_mul_pow2 by lia. change (2 ^ 8) with 256.
  change (2 ^ 16) with 65536. split; [|lia]. apply u16_small. lia.
Qed.

(** The loop body at the marker of a segment: the marker and the length
    are read, the marker is printed, and the [switch] is entered with the
    cursor behind the length. *)
Lemma parse_step_segment inner enc self ff m hi lo :
  cursor_ok self →
  at_ (raw_data self) (index self) = Returned ff → val ff = 0xff →
  at_ (raw_data self) (index self + 1) = Returned m →
  val m ≠ 0xd8 → val m ≠ 0xd9 →
  at_ (raw_data self) (index self + 2) = Returned hi →
  at_ (raw_data self) (index self + 3) = Returned lo →
  parse_step inner enc self
  = (print (ParsingMarker (val m) (index self + 4)) ≫= λ _,
     parse_segment inner (val m) (val hi * 256 + val lo)
       (index self + 2 + (val hi * 256 + val lo)) enc
       (JPEGParser.Build (raw_data self) (index self + 4))).
Proof.
  intros [Hi Hsz] Hff Hffv Hm Hd8 Hd9 Hhi Hlo. assert (2 ^ 63 < 2 ^ 64) by done.
  apply at_Returned in Hlo as Hlo'. destruct Hlo' as [_ Hlo'%lookup_lt_Some].
  destruct (segment_length_value hi lo) as [Hlen Hrange].
  assert (2 ^ 16 < 2 ^ 63) by done.
  unfold parse_step. cbn zeta. rewrite Hff. cbn [lift mbind run_bind].
  rewrite (bool_decide_true (val ff = 255)) by done.
  rewrite (u64_small (index self + 1)) by lia. rewrite Hm. cbn [lift mbind run_bind].
  rewrite (bool_decide_false (val m = 216)), (bool_decide_false (val m = 217)) by done.
  cbn [orb]. unfold advance. cbn [raw_data index].
  rewrite (u64_small (index self + 2)) by lia.
  rewrite Hhi. cbn [lift mbind run_bind].
  rewrite (u64_small (index self + 2 + 1)) by lia.
  replace (index self + 2 + 1) with (index self + 3) by lia.
  rewrite Hlo. cbn [lift mbind run_bind].
  rewrite Hlen.
  rewrite (u64_small (index self + 2 + 2)) by lia.
  rewrite (u64_small (index self + 2 + (val hi * 256 + val lo))) by lia.
  replace (index self + 2 + 2) with (index self + 4) by lia.
  cbn [print mbind run_bind app].
  by destruct (parse_segment _ _ _ _ _ _).
Qed.

Lemma parse_loop_S fuel inner enc self :
  index self < size_ (raw_data self) →
  parse_loop (S fuel) inner enc self
  = (parse_step inner enc self ≫= λ '(enc, self), parse_loop fuel inner enc self).
Proof. intros Hlt. cbn [parse_loop]. by rewrite bool_decide_true. Qed.

Lemma parse_loop_at_end fuel inner enc self :
  size_ (raw_data self) <= index self →
  parse_loop (S fuel) inner enc self = ([], Returned (enc, self)).
Proof. intros Hge. cbn [parse_loop]. rewrite bool_decide_false by lia. done. Qed.

Lemma parse_loop_skip fuel inner enc self ff m hi lo :
  cursor_ok self →
  at_ (raw_data self) (index self) = Returned ff → val ff = 0xff →
  at_ (raw_data self) (index self + 1) = Returned m →
  skipped_marker (val m) →
  at_ (raw_data self) (index self + 2) = Returned hi →
  at_ (raw_data self) (index self + 3) = Returned lo →
  parse_loop (S fuel) inner enc self
  = (let '(out, o) :=
       parse_loop fuel inner enc
         (JPEGParser.Build (raw_data self)
            (index self + 2 + (val hi * 256 + val lo))) in
     (skip_events (val m) (val hi * 256 + val lo) (index self + 4) ++ out, o)).
Proof.
  intros Hok Hff Hffv Hm (Hd8 & Hd9 & He0 & Hdb & Hc4 & Hda) Hhi Hlo.
  apply at_Returned in Hff as Hff'. destruct Hff' as [H0 Hff'%lookup_lt_Some].
  rewrite parse_loop_S by (unfold size_; lia).
  rewrite (parse_step_segment inner enc self ff m hi lo) by done.
  destruct (segment_length_value hi lo) as [_ Hrange].
  destruct Hok as [Hi Hsz]. assert (2 ^ 63 < 2 ^ 64) by done.
  assert (2 ^ 16 < 2 ^ 63) by done.
  unfold parse_segment, skip_events.
  rewrite (bool_decide_false (val m = 224)), (bool_decide_false (val m = 219)),
    (bool_decide_false (val m = 196)), (bool_decide_false (val m = 218)) by done.
  unfold advance. cbn [raw_data index].
  replace (index self + 4 + (val hi * 256 + val lo - 2))
    with (index self + 2 + (val hi * 256 + val lo)) by lia.
  rewrite u64_small by lia.
  case_bool_decide; cbn [print mret run_ret mbind run_bind app];
    by destruct (parse_loop fuel inner enc _).
Qed.

(** X18: a segment whose marker the [switch] does not handle is passed
    over: the loop prints the marker (and, unless it is SOF0, that it is
    ignored), changes no table, and goes on at the byte that lies the
    declared length behind the length field's first byte, whether that
    byte is in the buffer or not. *)
Theorem parse_loop_skips_segment (fuel inner : nat) (enc : JPEGEncoded)
    (self : JPEGParser) (ff m hi lo : byte)
    (out : list event) (o : outcome (JPEGEncoded * JPEGParser)) :
  cursor_ok self →
  at_ (raw_data self) (index self) = Returned ff → val ff = 0xff →
  at_ (raw_data self) (index self + 1) = Returned m →
  skipped_marker (val m) →
  at_ (raw_data self) (index self + 2) = Returned hi →
  at_ (raw_data self) (index self + 3) = Returned lo →
  parse_loop fuel inner enc
    (JPEGParser.Build (raw_data self) (index self + 2 + (val hi * 256 + val lo)))
  = (out, o) →
  parse_loop (S fuel) inner enc self
  = (skip_events (val m) (val hi * 256 + val lo) (index self + 4) ++ out, o).
Proof.
  intros Hok Hff Hffv Hm Hskip Hhi Hlo Hrest.
  rewrite (parse_loop_skip fuel inner enc self ff m hi lo) by done.
  by rewrite Hrest.
Qed.

Lemma parse_loop_skips_segment_witness :
  parse_loop 3 2 parse_init
    (JPEGParser.Build [xff; xe1; x00; x04; x2a; x2b; xff; xd9] 0)
  = (skip_events (val xe1) (val x00 * 256 + val x04) (0 + 4) ++ [],
     Returned (parse_init,
               JPEGParser.Build [xff; xe1; x00; x04; x2a; x2b; xff; xd9] 8)).
Proof.
  apply (parse_loop_skips_segment 2 2 parse_init
           (JPEGParser.Build [xff; xe1; x00; x04; x2a; x2b; xff; xd9] 0)
           xff xe1 x00 x04).
  - split; [split|]; by vm_compute.
  - reflexivity.
  - reflexivity.
  - reflexivity.
  - repeat split; by vm_compute.
  - reflexivity.
  - reflexivity.
  - by vm_compute.
Defined.

(** X20: a skipped segment may declare more bytes than the buffer has: the
    cursor is moved past the end of the buffer and the parse ends there as
    if the stream were complete, with the tables read so far. *)
Theorem parse_loop_skip_past_the_end (fuel inner : nat) (enc : JPEGEncoded)
    (self : JPEGParser) (ff m hi lo : byte) :
  cursor_ok self →
  at_ (raw_data self) (index self) = Returned ff → val ff = 0xff →
  at_ (raw_data self) (index self + 1) = Returned m →
  skipped_marker (val m) →
  at_ (raw_data self) (index self + 2) = Returned hi →
  at_ (raw_data self) (index self + 3) = Returned lo →
  size_ (raw_data self) <= index self + 2 + (val hi * 256 + val lo) →
  parse_loop (S (S fuel)) inner enc self
  = (skip_events (val m) (val hi * 256 + val lo) (index self + 4),
     Returned (enc, JPEGParser.Build (raw_data self)
                      (index self + 2 + (val hi * 256 + val lo)))).
Proof.
  intros Hok Hff Hffv Hm Hskip Hhi Hlo Hpast.
  rewrite (parse_loop_skip (S fuel) inner enc self ff m hi lo) by done.
  rewrite parse_loop_at_end by done. by rewrite app_nil_r.
Qed.

Lemma parse_loop_skip_past_the_end_witness :
  parse_loop 2 2 parse_init (JPEGParser.Build [xff; xc0; xff; xff; x2a] 0)
  = (skip_events (val xc0) (val xff * 256 + val xff) (0 + 4),
     Returned (parse_init,
               JPEGParser.Build [xff; xc0; xff; xff; x2a]
                 (0 + 2 + (val xff * 256 + val xff)))).
Proof.
  apply (parse_loop_skip_past_the_end 0 2 parse_init
           (JPEGParser.Build [xff; xc0; xff; xff; x2a] 0) xff xc0 xff xff).
  - split; [split|]; by vm_compute.
  - reflexivity.
  - reflexivity.
  - reflexivity.
  - repeat split; by vm_compute.
  - reflexivity.
  - reflexivity.
  - by vm_compute.
Defined.

(** X19: a skipped segment that declares a length below 2 moves the
    cursor back into its own length field, and the parse throws on the
    next pass: the byte it finds there is the length itself, 0 or 1, not a
    marker prefix. *)
Theorem parse_loop_short_length_terminates (fuel inner : nat) (enc : JPEGEncoded)
    (self : JPEGParser) (ff m hi lo : byte) :
  cursor_ok self →
  at_ (raw_data self) (index self) = Returned ff → val ff = 0xff →
  at_ (raw_data self) (index self + 1) = Returned m →
  skipped_marker (val m) →
  at_ (raw_data self) (index self + 2) = Returned hi →
  at_ (raw_data self) (index self + 3) = Returned lo →
  val hi * 256 + val lo < 2 →
  parse_loop (S (S fuel)) inner enc self
  = (skip_events (val m) (val hi * 256 + val lo) (index self + 4)
       ++ [HexByte (val hi * 256 + val lo)],
     Terminated).
Proof.
  intros Hok Hff Hffv Hm Hskip Hhi Hlo Hshort.
  rewrite (parse_loop_skip (S fuel) inner enc self ff m hi lo) by done.
  pose proof (val_range hi). pose proof (val_range lo).
  assert (Hnext : ∃ c, at_ (raw_data self) (index self + 2 + (val hi * 256 + val lo))
                       = Returned c ∧ val c = val hi * 256 + val lo).
  { destruct (decide (val lo = 0)) as [Hz|Hnz].
    - exists hi. replace (val hi * 256 + val lo) with 0 by lia.
      rewrite Z.add_0_r. split; [done|lia].
    - exists lo. replace (val hi * 256 + val lo) with 1 by lia.
      replace (index self + 2 + 1) with (index self + 3) by lia. split; [done|lia]. }
  destruct Hnext as (c & Hc & Hcv).
  apply at_Returned in Hc as Hc'. destruct Hc' as [Hc0 Hc'%lookup_lt_Some].
  rewrite parse_loop_S by (cbn [raw_data index]; unfold size_; lia).
  rewrite (parse_step_bad_byte inner enc _ c) by (done || cbn [raw_data index]; lia).
  cbn [mbind run_bind]. by rewrite Hcv.
Qed.

Lemma parse_loop_short_length_terminates_witness :
  parse_loop 2 2 parse_init (JPEGParser.Build [xff; xfe; x00; x01; xff; xd9] 0)
  = (skip_events (val xfe) (val x00 * 256 + val x01) (0 + 4)
       ++ [HexByte (val x00 * 256 + val x01)],
     Terminated).
Proof.
  apply (parse_loop_short_length_terminates 0 2 parse_init
           (JPEGParser.Build [xff; xfe; x00; x01; xff; xd9] 0) xff xfe x00 x01).
  - split; [split|]; by vm_compute.
  - reflexivity.
  - reflexivity.
  - reflexivity.
  - repeat split; by vm_compute.
  - reflexivity.
  - reflexivity.
  - by vm_compute.
Defined.

(** X17: a start-of-scan marker ends the parse: the cursor is set to the
    end of the buffer, nothing behind the marker's length field is read,
    whatever it is, and the tables are returned as they are. *)
Theorem parse_loop_ends_at_start_of_scan (fuel inner : nat) (enc : JPEGEncoded)
    (self : JPEGParser) (ff m hi lo : byte) :
  cursor_ok self →
  at_ (raw_data self) (index self) = Returned ff → val ff = 0xff →
  at_ (raw_data self) (index self + 1) = Returned m → val m = 0xda →
  at_ (raw_data self) (index self + 2) = Returned hi →
  at_ (raw_data self) (index self + 3) = Returned lo →
  parse_loop (S (S fuel)) inner enc self
  = ([ParsingMarker 0xda (index self + 4)],
     Returned (enc, JPEGParser.Build (raw_data self) (size_ (raw_data self)))).
Proof.
  intros Hok Hff Hffv Hm Hmv Hhi Hlo.
  apply at_Returned in Hlo as Hlo'. destruct Hlo' as [H0 Hlo'%lookup_lt_Some].
  rewrite parse_loop_S by (unfold size_; destruct Hok; lia).
  rewrite (parse_step_segment inner enc self ff m hi lo) by (done || lia).
  destruct Hok as [Hi Hsz]. assert (2 ^ 63 < 2 ^ 64) by done.
  unfold parse_segment. rewrite Hmv.
  rewrite (bool_decide_false (218 = 224)), (bool_decide_false (218 = 219)),
    (bool_decide_false (218 = 196)), (bool_decide_false (218 = 192)),
    (bool_decide_true (218 = 218)) by done.
  unfold advance. cbn [raw_data index].
  rewrite (u64_small (size_ _ - _)) by (unfold size_ in *; lia).
  replace (index self + 4 + (size_ (raw_data self) - (index self + 4)))
    with (size_ (raw_data self)) by lia.
  rewrite u64_small by (unfold size_ in *; lia).
  cbn [print mret run_ret mbind run_bind app].
  rewrite parse_loop_at_end by (cbn [raw_data index]; lia). done.
Qed.

Lemma parse_loop_ends_at_start_of_scan_witness :
  parse_loop 2 2 parse_init
    (JPEGParser.Build [xff; xda; x00; x08; x01; x02; x00; xab; xcd] 0)
  = ([ParsingMarker 0xda (0 + 4)],
     Returned (parse_init,
               JPEGParser.Build [xff; xda; x00; x08; x01; x02; x00; xab; xcd]
                 (size_ [xff; xda; x00; x08; x01; x02; x00; xab; xcd]))).
Proof.
  apply (parse_loop_ends_at_start_of_scan 0 2 parse_init
           (JPEGParser.Build [xff; xda; x00; x08; x01; x02; x00; xab; xcd] 0)
           xff xda x00 x08).
  - split; [split|]; by vm_compute.
  - reflexivity.
  - reflexivity.
  - reflexivity.
  - reflexivity.
  - reflexivity.
  - reflexivity.
Defined.

(** X23: the markers SOI and EOI are passed over wherever they stand: the
    loop goes on two bytes further with the same tables and prints
    nothing; an EOI marker does not end the parse. *)
Theorem parse_loop_passes_soi_and_eoi (fuel inner : nat) (enc : JPEGEncoded)
    (self : JPEGParser) (ff m : byte) :
  cursor_ok self →
  at_ (raw_data self) (index self) = Returned ff → val ff = 0xff →
  at_ (raw_data self) (index self + 1) = Returned m →
  val m = 0xd8 ∨ val m = 0xd9 →
  parse_loop (S fuel) inner enc self
  = parse_loop fuel inner enc (JPEGParser.Build (raw_data self) (index self + 2)).
Proof.
  intros [Hi Hsz] Hff Hffv Hm Hmv. assert (2 ^ 63 < 2 ^ 64) by done.
  apply at_Returned in Hm as Hm'. destruct Hm' as [H0 Hm'%lookup_lt_Some].
  rewrite parse_loop_S by (unfold size_; lia).
  unfold parse_step. cbn zeta. rewrite Hff. cbn [lift mbind run_bind].
  rewrite (bool_decide_true (val ff = 255)) by done.
  rewrite (u64_small (index self + 1)) by lia. rewrite Hm. cbn [lift mbind run_bind].
  assert (bool_decide (val m = 216) || bool_decide (val m = 217) = true) as ->.
  { destruct Hmv as [-> | ->]; done. }
  unfold advance. rewrite u64_small by lia.
  cbn [mret run_ret mbind run_bind app].
  by destruct (parse_loop fuel inner enc _) as [out [[enc1 self1]| | |]].
Qed.

Lemma parse_loop_passes_soi_and_eoi_witness :
  parse_loop 3 3 parse_init (JPEGParser.Build [xff; xd9; xff; xd8] 0)
  = parse_loop 2 3 parse_init (JPEGParser.Build [xff; xd9; xff; xd8] (0 + 2)).
Proof.
  apply (parse_loop_passes_soi_and_eoi 2 3 parse_init
           (JPEGParser.Build [xff; xd9; xff; xd8] 0) xff xd9).
  - split; [split|]; by vm_compute.
  - reflexivity.
  - reflexivity.
  - reflexivity.
  - right. reflexivity.
Defined.

(** X24: an APP0 segment replaces the JFIF header of the result and moves
    the cursor by the 4 bytes of marker and length and the 14 bytes of the
    header, whatever length the segment declares; the loop goes on there
    with the tables unchanged. *)
Theorem parse_loop_app0 (fuel inner : nat) (enc : JPEGEncoded)
    (self self1 : JPEGParser) (ff m hi lo : byte) (jfif : JFIFData)
    (out : list event) (o : outcome (JPEGEncoded * JPEGParser)) :
  cursor_ok self →
  at_ (raw_data self) (index self) = Returned ff → val ff = 0xff →
  at_ (raw_data self) (index self + 1) = Returned m → val m = 0xe0 →
  at_ (raw_data self) (index self + 2) = Returned hi →
  at_ (raw_data self) (index self + 3) = Returned lo →
  parse_jfif_data (JPEGParser.Build (raw_data self) (index self + 4))
  = Returned (jfif, self1) →
  parse_loop fuel inner
    (Build_JPEGEncoded (Some jfif) (q_tables enc) (q_tables_nbr enc)
       (huffman_ac_tables enc) (huffman_dc_tables enc))
    (JPEGParser.Build (raw_data self) (index self + 18))
  = (out, o) →
  parse_loop (S fuel) inner enc self
  = (ParsingMarker 0xe0 (index self + 4) :: out, o).
Proof.
  intros Hok Hff Hffv Hm Hmv Hhi Hlo Hj Hrest.
  apply at_Returned in Hlo as Hlo'. destruct Hlo' as [H0 Hlo'%lookup_lt_Some].
  rewrite parse_loop_S by (unfold size_; destruct Hok; lia).
  rewrite (parse_step_segment inner enc self ff m hi lo) by (done || lia).
  assert (Hok4 : cursor_ok (JPEGParser.Build (raw_data self) (index self + 4))).
  { destruct Hok as [Hi Hsz]. split; cbn [raw_data index]; [unfold size_; lia|done]. }
  apply parse_jfif_data_Returned in Hj as Hj'; [|done].
  destruct Hj' as (_ & -> & _). cbn [raw_data index] in *.
  unfold parse_segment. rewrite Hmv, (bool_decide_true (224 = 224)) by done.
  rewrite Hj. cbn [lift print mret outcome_ret mbind outcome_bind run_bind app].
  replace (index self + 4 + 14) with (index self + 18) by lia.
  by rewrite Hrest.
Qed.

Lemma parse_loop_app0_witness :
  ∃ enc self',
    parse_loop 3 3 parse_init (JPEGParser.Build (skipn 2 (app0_stream x01 x00 x00)) 0)
    = (ParsingMarker 0xe0 (0 + 4) :: [], Returned (enc, self'))
    ∧ ∃ jfif, metadata enc = Some jfif.
Proof.
  assert (H : ∃ jfif, parse_jfif_data
                        (JPEGParser.Build (skipn 2 (app0_stream x01 x00 x00)) (0 + 4))
                      = Returned (jfif, JPEGParser.Build
                                          (skipn 2 (app0_stream x01 x00 x00)) 18))
    by (eexists; by vm_compute).
  destruct H as [jfif H].
  do 2 eexists. split.
  - apply (parse_loop_app0 2 3 parse_init
             (JPEGParser.Build (skipn 2 (app0_stream x01 x00 x00)) 0)
             (JPEGParser.Build (skipn 2 (app0_stream x01 x00 x00)) 18)
             xff xe0 x00 x10 jfif).
    + split; [split|]; by vm_compute.
    + reflexivity.
    + reflexivity.
    + reflexivity.
    + reflexivity.
    + reflexivity.
    + reflexivity.
    + exact H.
    + by vm_compute.
  - by eexists.
Defined.

(** ** The scanning loop as a whole *)

Lemma dht_loop_cursor fuel segment_end enc self enc' self' :
  cursor_ok self →
  dht_loop fuel segment_end enc self = Returned (enc', self') →
  raw_data self' = raw_data self ∧ index self <= index self' ∧ cursor_ok self'.
Proof.
  revert enc self. induction fuel as [|fuel IH]; intros enc self Hok H; [done|].
  destruct (decide (index self < segment_end)) as [Hlt|Hge].
  - apply dht_loop_S_Returned in H
      as (c & table & self1 & enc1 & _ & _ & Hraw & Hadv & Hok1 & H & _); [|done..].
    destruct (IH enc1 self1 Hok1 H) as (Hraw' & Hle & Hok').
    split; [congruence|]. split; [lia|done].
  - cbn [dht_loop] in H. rewrite bool_decide_false in H by done.
    injection H as <- <-. split; [done|]. split; [lia|done].
Qed.

Lemma parse_segment_Returned inner marker length segment_end enc self out enc' self' :
  cursor_ok self → 2 <= index self → 0 <= length < 2 ^ 16 →
  parse_segment inner marker length segment_end enc self
  = (out, Returned (enc', self')) →
  raw_data self' = raw_data self ∧ index self - 2 <= index self'.
Proof.
  intros Hok H2 Hlen. assert (Hok' := Hok). destruct Hok' as [Hi Hsz].
  assert (2 ^ 63 < 2 ^ 64) by done. assert (2 ^ 16 < 2 ^ 63) by done.
  unfold parse_segment, lift. repeat case_bool_decide.
  - intros [= _ E]. apply bind_Returned in E as ([jfif self1] & Hj & [= _ <-]).
    apply parse_jfif_data_Returned in Hj as (_ & -> & _); [|done].
    split; [done|cbn; lia].
  - intros [= _ E]. apply dqt_loop_exit in E as (n & -> & _); [|done].
    split; [done|cbn; lia].
  - intros [= _ E]. apply dht_loop_cursor in E as (-> & ? & _); [|done].
    split; [done|lia].
  - intros [= _ _ <-]. split; [done|]. cbn. rewrite u64_small; lia.
  - intros [= _ _ <-]. split; [done|]. cbn.
    rewrite (u64_small (size_ _ - _)) by lia. rewrite u64_small by lia. lia.
  - intros [= _ _ <-]. split; [done|]. cbn. rewrite u64_small; lia.
Qed.

Lemma parse_step_Returned inner enc self out enc' self' :
  cursor_ok self →
  parse_step inner enc self = (out, Returned (enc', self')) →
  raw_data self' = raw_data self ∧ index self + 2 <= index self'.
Proof.
  intros Hok. assert (Hok' := Hok). destruct Hok' as [Hi Hsz].
  assert (2 ^ 63 < 2 ^ 64) by done.
  unfold parse_step. cbn zeta.
  destruct (at_cases (raw_data self) (index self)) as [(ff & Hff & Hffr)|[-> _]];
    [|done].
  rewrite Hff. cbn [lift mbind run_bind].
  case_bool_decide as Hffv; [|done].
  rewrite (u64_small (index self + 1)) by lia.
  destruct (at_cases (raw_data self) (index self + 1)) as [(m & Hm & Hmr)|[-> _]];
    [|done].
  rewrite Hm. cbn [lift mbind run_bind].
  unfold advance. cbn [raw_data index].
  rewrite (u64_small (index self + 2)) by lia.
  destruct (_ || _) eqn:Hsoi.
  { cbn. intros [= _ _ <-]. split; [done|cbn; lia]. }
  apply orb_false_iff in Hsoi as [Hd8%bool_decide_eq_false Hd9%bool_decide_eq_false].
  destruct (at_cases (raw_data self) (index self + 2)) as [(hi & Hhi & Hhir)|[-> _]];
    [|done].
  rewrite Hhi. cbn [lift mbind run_bind].
  rewrite (u64_small (index self + 2 + 1)) by lia.
  destruct (at_cases (raw_data self) (index self + 2 + 1)) as [(lo & Hlo & Hlor)|[-> _]];
    [|done].
  rewrite Hlo. cbn [lift mbind run_bind print app].
  rewrite (u64_small (index self + 2 + 2)) by lia.
  destruct (parse_segment _ _ _ _ _ _) as [out1 [[enc1 self1]| | |]] eqn:Hseg;
    try done.
  intros [= _ <- <-].
  apply parse_segment_Returned in Hseg as [Hraw Hle]; cbn [raw_data index] in *.
  - split; [done|lia].
  - split; cbn [raw_data index]; [lia|done].
  - lia.
  - apply u16_range.
Qed.

(** X1: every pass of the scanning loop that returns leaves the buffer as
    it is and moves the cursor at least two bytes forward, also through a
    skipped segment that declares the length 0. *)
Theorem parse_step_advances (inner : nat) (enc enc' : JPEGEncoded)
    (self self' : JPEGParser) (out : list event) :
  cursor_ok self →
  parse_step inner enc self = (out, Returned (enc', self')) →
  raw_data self' = raw_data self ∧ index self + 2 <= index self'.
Proof. apply parse_step_Returned. Qed.

Lemma parse_step_advances_witness :
  ∃ out enc' self',
    parse_step 9 parse_init (JPEGParser.Build [xff; xfe; x00; x00; xff; xd9] 0)
    = (out, Returned (enc', self'))
    ∧ raw_data self' = [xff; xfe; x00; x00; xff; xd9]
    ∧ 0 + 2 <= index self'.
Proof.
  assert (H : ∃ out result,
             parse_step 9 parse_init
               (JPEGParser.Build [xff; xfe; x00; x00; xff; xd9] 0)
             = (out, Returned result)) by (do 2 eexists; by vm_compute).
  destruct H as (out & [enc' self'] & H).
  exists out, enc', self'. split; [exact H|].
  apply (parse_step_advances 9 parse_init enc'
           (JPEGParser.Build [xff; xfe; x00; x00; xff; xd9] 0) self' out).
  - split; [split|]; by vm_compute.
  - exact H.
Defined.

Lemma dqt_loop_frame fuel segment_end enc self enc' self' :
  dqt_loop fuel segment_end enc self = Returned (enc', self') →
  metadata enc' = metadata enc
  ∧ huffman_ac_tables enc' = huffman_ac_tables enc
  ∧ huffman_dc_tables enc' = huffman_dc_tables enc.
Proof.
  revert enc self. induction fuel as [|fuel IH]; intros enc self; [done|].
  cbn [dqt_loop]. case_bool_decide.
  - intros ([table self1] & _ & (tables & _ & E)%bind_Returned)%bind_Returned.
    by apply IH in E.
  - by intros [= <- <-].
Qed.

Lemma parse_segment_tables_ok inner marker length segment_end enc self out enc' self' :
  cursor_ok self → tables_ok enc →
  parse_segment inner marker length segment_end enc self
  = (out, Returned (enc', self')) →
  tables_ok enc'.
Proof.
  intros Hok (Hq & Hn & Hac & Hdc).
  unfold parse_segment, lift. repeat case_bool_decide.
  - intros [= _ E]. apply bind_Returned in E as ([jfif self1] & _ & [= <- _]). done.
  - intros [= _ E].
    destruct (dqt_loop_frame _ _ _ _ _ _ E) as (_ & Hac' & Hdc').
    apply dqt_loop_Returned in E as (n & Hn' & Hle & _ & Hq' & _); [|done..].
    split; [done|]. split; [lia|]. split; congruence.
  - intros [= _ E].
    apply dht_loop_Returned in E as ((_ & Hq' & Hn') & (Hac' & Hdc') & _); [|done..].
    split; [congruence|]. split; [lia|]. done.
  - by intros [= _ <- _].
  - by intros [= _ <- _].
  - by intros [= _ <- _].
Qed.

Lemma parse_step_tables_ok inner enc self out enc' self' :
  cursor_ok self → tables_ok enc →
  parse_step inner enc self = (out, Returned (enc', self')) →
  tables_ok enc'.
Proof.
  intros Hok Htab. assert (Hok' := Hok). destruct Hok' as [Hi Hsz].
  assert (2 ^ 63 < 2 ^ 64) by done.
  unfold parse_step. cbn zeta.
  destruct (at_cases (raw_data self) (index self)) as [(ff & Hff & Hffr)|[-> _]];
    [|done].
  rewrite Hff. cbn [lift mbind run_bind].
  case_bool_decide as Hffv; [|done].
  rewrite (u64_small (index self + 1)) by lia.
  destruct (at_cases (raw_data self) (index self + 1)) as [(m & Hm & Hmr)|[-> _]];
    [|done].
  rewrite Hm. cbn [lift mbind run_bind].
  unfold advance. cbn [raw_data index].
  rewrite (u64_small (index self + 2)) by lia.
  destruct (_ || _).
  { cbn. by intros [= _ <- _]. }
  destruct (at_cases (raw_data self) (index self + 2)) as [(hi & Hhi & Hhir)|[-> _]];
    [|done].
  rewrite Hhi. cbn [lift mbind run_bind].
  rewrite (u64_small (index self + 2 + 1)) by lia.
  destruct (at_cases (raw_data self) (index self + 2 + 1)) as [(lo & Hlo & Hlor)|[-> _]];
    [|done].
  rewrite Hlo. cbn [lift mbind run_bind print app].
  rewrite (u64_small (index self + 2 + 2)) by lia.
  destruct (parse_segment _ _ _ _ _ _) as [out1 [[enc1 self1]| | |]] eqn:Hseg;
    try done.
  intros [= _ <- <-].
  apply parse_segment_tables_ok in Hseg; [done| |done].
  split; cbn [raw_data index]; [lia|done].
Qed.

Lemma parse_loop_Returned fuel inner enc self out enc' self' :
  0 <= index self → size_ (raw_data self) < 2 ^ 63 → tables_ok enc →
  parse_loop fuel inner enc self = (out, Returned (enc', self')) →
  tables_ok enc'
  ∧ raw_data self' = raw_data self
  ∧ index self <= index self'
  ∧ size_ (raw_data self) <= index self'.
Proof.
  revert enc self out.
  induction fuel as [|fuel IH]; intros enc self out Hi Hsz Htab; [done|].
  cbn [parse_loop]. case_bool_decide as Hlt.
  - assert (Hok : cursor_ok self) by (split; [lia|done]).
    destruct (parse_step inner enc self) as [out1 [[enc1 self1]| | |]] eqn:Hstep;
      cbn [mbind run_bind]; try done.
    destruct (parse_step_Returned _ _ _ _ _ _ Hok Hstep) as [Hraw Hadv].
    pose proof (parse_step_tables_ok _ _ _ _ _ _ Hok Htab Hstep) as Htab1.
    destruct (parse_loop fuel inner enc1 self1) as [out2 o] eqn:Hloop.
    intros [= _ ->].
    apply IH in Hloop as (Htab' & Hraw' & Hle & Hend); [|lia|congruence|done].
    rewrite Hraw in *. split; [done|]. split; [done|]. split; [lia|done].
  - intros [= _ <- <-]. split; [done|]. split; [done|]. split; lia.
Qed.

(** X3: [parse] returns only with the cursor at or past the end of the
    buffer, which it leaves as it was; the result then has its 4
    quantization slots and a count of at most 4 tables, and 32 slots in
    each Huffman array. *)
Theorem parse_returns_at_the_end (self self' : JPEGParser) (enc : JPEGEncoded)
    (out : list event) :
  0 <= index self → size_ (raw_data self) < 2 ^ 63 →
  parse self = (out, Returned (enc, self')) →
  raw_data self' = raw_data self
  ∧ size_ (raw_data self) <= index self'
  ∧ tables_ok enc.
Proof.
  intros Hi Hsz H. unfold parse in H. cbn zeta in H.
  apply parse_loop_Returned in H as (Htab & Hraw & _ & Hend); [done|done|done|].
  repeat split; by vm_compute.
Qed.

Lemma parse_returns_at_the_end_witness :
  ∃ out enc self',
    parse (JPEGParser.Build two_huffman_tables_stream 0) = (out, Returned (enc, self'))
    ∧ raw_data self' = two_huffman_tables_stream
    ∧ size_ two_huffman_tables_stream <= index self'
    ∧ tables_ok enc.
Proof.
  assert (H : ∃ out result,
             parse (JPEGParser.Build two_huffman_tables_stream 0)
             = (out, Returned result)) by (do 2 eexists; by vm_compute).
  destruct H as (out & [enc self'] & H).
  exists out, enc, self'. split; [exact H|].
  apply (parse_returns_at_the_end
           (JPEGParser.Build two_huffman_tables_stream 0) self' enc out).
  - by vm_compute.
  - by vm_compute.
  - exact H.
Defined.

(** X25: a buffer that ends inside the head of a segment is read out of
    range by the loop itself: after a marker prefix in the last byte the
    marker is read past the end, and after a marker other than SOI and EOI
    the two length bytes are read whether they are there or not. *)
Theorem parse_loop_truncated_marker (fuel inner : nat) (enc : JPEGEncoded)
    (self : JPEGParser) (ff : byte) :
  cursor_ok self →
  at_ (raw_data self) (index self) = Returned ff → val ff = 0xff →
  (size_ (raw_data self) <= index self + 1
   ∨ ∃ m, at_ (raw_data self) (index self + 1) = Returned m
          ∧ val m ≠ 0xd8 ∧ val m ≠ 0xd9
          ∧ size_ (raw_data self) <= index self + 3) →
  parse_loop (S fuel) inner enc self = ([], OutOfRange).
Proof.
  intros [Hi Hsz] Hff Hffv Hcut. assert (2 ^ 63 < 2 ^ 64) by done.
  apply at_Returned in Hff as Hff'. destruct Hff' as [H0 Hff'%lookup_lt_Some].
  rewrite parse_loop_S by (unfold size_; lia).
  unfold parse_step. cbn zeta. rewrite Hff. cbn [lift mbind run_bind].
  rewrite (bool_decide_true (val ff = 255)) by done.
  rewrite (u64_small (index self + 1)) by lia.
  destruct Hcut as [Hcut|(m & Hm & Hd8 & Hd9 & Hcut)].
  - rewrite (proj2 (at_OutOfRange _ _)) by lia. done.
  - rewrite Hm. cbn [lift mbind run_bind].
    rewrite (bool_decide_false (val m = 216)), (bool_decide_false (val m = 217)) by done.
    cbn [orb]. unfold advance. cbn [raw_data index].
    rewrite (u64_small (index self + 2)) by lia.
    destruct (at_cases (raw_data self) (index self + 2)) as [(hi & -> & Hhi)|[-> _]];
      [|done].
    cbn [lift mbind run_bind].
    rewrite (u64_small (index self + 2 + 1)) by lia.
    rewrite (proj2 (at_OutOfRange _ (index self + 2 + 1))) by lia. done.
Qed.

Lemma parse_loop_truncated_marker_witness :
  parse_loop 1 1 parse_init (JPEGParser.Build [xff; xd8; xff; xc4; x00] 2)
  = ([], OutOfRange).
Proof.
  apply (parse_loop_truncated_marker 0 1 parse_init
           (JPEGParser.Build [xff; xd8; xff; xc4; x00] 2) xff).
  - split; [split|]; by vm_compute.
  - reflexivity.
  - reflexivity.
  - right. exists xc4. repeat split; by vm_compute.
Defined.

(** ** The counts of a Huffman table *)

Lemma filter_replicate_length {A} (P : A → Prop) `{∀ x, Decision (P x)} n x :
  List.length (filter P (replicate n x)) = if decide (P x) then n else 0%nat.
Proof.
  induction n as [|n IH]; cbn [replicate]; [by destruct (decide (P x))|].
  rewrite filter_cons. destruct (decide (P x)); cbn [length]; by rewrite IH.
Qed.

Lemma filter_none_length {A} (P : A → Prop) `{∀ x, Decision (P x)} l :
  Forall (λ x, ¬ P x) l → List.length (filter P l) = 0%nat.
Proof.
  induction 1 as [|x l Hx Hl IH]; [done|].
  rewrite filter_cons. by destruct (decide (P x)).
Qed.

Lemma expand_sizes_count i size_data (j : nat) n :
  0 <= i → i + size_ size_data <= 255 →
  size_data !! j = Some n →
  List.length (filter (λ s, s = i + 1 + Z.of_nat j) (expand_sizes i size_data))
  = Z.to_nat (val n).
Proof.
  unfold size_. revert i j.
  induction size_data as [|n0 rest IH]; intros i j Hi Hle Hj; [done|].
  cbn [expand_sizes length] in *.
  rewrite filter_app, length_app, filter_replicate_length, u8_small by lia.
  destruct j as [|j]; cbn in Hj.
  - injection Hj as ->. rewrite decide_True by lia.
    rewrite filter_none_length; [lia|].
    eapply Forall_impl; [apply (expand_sizes_bounds (i + 1)); unfold size_; lia|].
    cbn. lia.
  - rewrite decide_False by lia.
    replace (i + 1 + Z.of_nat (S j)) with (i + 1 + 1 + Z.of_nat j) by lia.
    by rewrite (IH (i + 1) j) by (done || lia).
Qed.

(** X8: a Huffman table that [parse_huffman_table] returns has, for each
    of the 16 counts at the cursor, exactly that many codes of the length
    the count stands for: the count number [j] (from 0) is the number of
    codes of length [j + 1]. *)
Theorem parse_huffman_table_counts (self self' : JPEGParser)
    (table : HuffmanTable) (j : nat) (n : byte) :
  cursor_ok self →
  parse_huffman_table self = Returned (table, self') →
  (j < 16)%nat →
  raw_data self !! (Z.to_nat (index self) + j)%nat = Some n →
  List.length (filter (λ s, s = Z.of_nat j + 1) (HuffmanCode.length <$> codes table))
  = Z.to_nat (val n).
Proof.
  intros Hok H Hj Hn.
  destruct (parse_huffman_table_Returned _ _ _ Hok H)
    as (size_data & Hr & _ & _ & Hsize & Hk).
  apply range_Returned in Hr as Hr'. destruct Hr' as [Hin ->].
  set (size_data := take (Z.to_nat 16) (drop (Z.to_nat (index self)) (raw_data self)))
    in *.
  assert (Hlen16 : List.length size_data = 16%nat).
  { subst size_data. rewrite length_take, length_drop. unfold size_ in Hin. lia. }
  assert (Hlengths : HuffmanCode.length <$> codes table = expand_sizes 0 size_data).
  { apply list_eq. intros k. rewrite list_lookup_fmap.
    destruct (codes table !! k) as [c|] eqn:Hc; cbn.
    - symmetry. by apply Hk.
    - symmetry. apply lookup_ge_None. apply lookup_ge_None in Hc.
      pose proof (expand_sizes_length 0 size_data) as He. unfold size_ in *. lia. }
  rewrite Hlengths.
  replace (Z.of_nat j + 1) with (0 + 1 + Z.of_nat j) by lia.
  apply expand_sizes_count; [done|unfold size_; lia|].
  subst size_data. rewrite lookup_take_lt by (change (Z.to_nat 16) with 16%nat; lia).
  by rewrite lookup_drop.
Qed.

Lemma parse_huffman_table_counts_witness :
  ∃ table self',
    parse_huffman_table (JPEGParser.Build (counts [x01; x02] ++ [x0a; x0b; x0c]) 0)
    = Returned (table, self')
    ∧ List.length (filter (λ s, s = Z.of_nat 1 + 1)
                     (HuffmanCode.length <$> codes table))
      = Z.to_nat (val x02).
Proof.
  assert (H : ∃ result,
             parse_huffman_table
               (JPEGParser.Build (counts [x01; x02] ++ [x0a; x0b; x0c]) 0)
             = Returned result) by (eexists; by vm_compute).
  destruct H as [[table self'] H].
  exists table, self'. split; [exact H|].
  apply (parse_huffman_table_counts
           (JPEGParser.Build (counts [x01; x02] ++ [x0a; x0b; x0c]) 0) self' table
           1 x02).
  - split; [split|]; by vm_compute.
  - exact H.
  - lia.
  - reflexivity.
Defined.
